(** * s3-versions-to-git-history: replaying S3 object versions as git commits

    A shallow embedding of [s3-versions-to-git.go].  The program talks to
    three outside parties: the S3 service, the local file system and a
    go-git repository.  Their answers are taken from an oracle record
    ([Env]); what the program does to them is kept in an explicit [World]
    that every function threads through (files written, git index, commits,
    everything printed, and the list of outside calls made so far).

    Go values are modelled as follows.
    - [time.Time] is an instant, a [Z]; [time.Time{}] is the instant [0],
      [Before] and [After] are the strict orders on instants, and [==] on
      two times (all of them without monotonic reading and in one location)
      is equality of instants.
    - the Go [error] interface is the text of the error.
    - a multi-valued return [(x, err)] is a pair whose second component is
      an [option]; [None] is Go's [nil].
    - [sort.Slice] is the one library routine with algorithmic content; it
      is represented by its documented contract, see [SortSlice]. *)

From Stdlib Require Import ZArith Lia.
From stdpp Require Import base option list sorting strings gmap.

Local Open Scope string_scope.
Local Open Scope list_scope.
Local Open Scope Z_scope.

(** ** Data model *)

Definition Instant := Z.
Definition error := string.
Definition bytes := list Byte.byte.

(** [time.Time{}], the zero instant. *)
Definition time_zero : Instant := 0.
Definition Before (t u : Instant) : bool := t <? u.
Definition After (t u : Instant) : bool := u <? t.
Definition time_eqb (t u : Instant) : bool := t =? u.

Record S3Object := {
  obj_Key : string;
  obj_Bucket : string
}.

Record S3VersionedObject := {
  Key : string;
  Bucket : string;
  VersionId : string;
  RepositoryRoot : string;
  LastModified : Instant
}.

(** [gitContainer] holds the work tree and the repository handle of one
    repository; both are determined by the directory it lives in. *)
Record gitContainer := {
  repo_dir : string
}.

(** One entry of [ListObjectVersionsOutput.Versions], after [aws.ToString]
    and [aws.ToTime]. *)
Record ObjectVersion := {
  ov_Key : string;
  ov_VersionId : string;
  ov_LastModified : Instant
}.

(** The body of a [GetObjectOutput] as [io.ReadAll] sees it: the bytes that
    could be read, and the read error if the stream broke. *)
Record Body := {
  body_read : bytes;
  body_err : option error
}.

(** The commit message is [fmt.Sprintf("Modification on %s", commitDate)]:
    a fixed prefix and the rendering of one instant. *)
Inductive CommitMessage :=
| ModificationOn (date : Instant).

Record Commit := {
  message : CommitMessage;
  author_Name : string;
  author_Email : string;
  author_When : Instant;
  tree : gmap string bytes
}.

(** ** What the program prints *)

(** One constructor for each text the program logs, with the values that
    are formatted into it.  [LogNoConfiguration] is printed by
    [getS3Client] and, with the same words, by [queryS3Versions];
    [LogCreateFailed] is printed for a failed [os.MkdirAll] and for a
    failed [os.Create] alike. *)
Inductive LogLine :=
| LogAbsPathFailed (path : string)      (* Couldn't create absolute path for %s *)
| LogNoConfiguration                    (* Couldn't load default configuration. ... *)
| LogListObjectsFailed (bucketName : string) (* ListObjectsV2 failed while querying: %s *)
| LogApplyFailed (n : nat)              (* Error applying Git changes for %d objects *)
| LogGetObjectFailed (bucket key versionId : string) (* Couldn't get object %v:%v@%v. *)
| LogCreateFailed (filename : string)   (* Couldn't create file %v. *)
| LogReadBodyFailed (key versionId : string) (* Couldn't read object body from %v@%v. *)
| LogDownloadFailed (bucket key versionId localPath : string)
                                        (* Error downloading object %s:%s@%s to %s *)
| LogStagingFailed (localPath : string) (* Error staging object %s *)
| LogCommitStageFailed                  (* Error comitting objects to stage *)
| LogCommitRepoFailed                   (* Error comitting objects to repo *)
| LogApplied (files : list string)      (* Successfully applied commit with ... *)
| LogMkdirFailed (repoPath : string)    (* Unable to create directories %s *)
| LogInitFailed (repoPath : string)     (* Error unable to git init in the %s folder *)
| LogWorktreeFailed (repoPath : string) (* Error unable to initialize the git worktree ... *)
| LogVersionsFailed.                    (* Error getting versions of S3 Objects *)

Inductive Output :=
| Log (line : LogLine)
| ErrorMessage (text : string)
| Println (text : string)
| Usage.

(** ** Calls that leave the process *)

Inductive Call :=
| CallLoadDefaultConfig (profile : option (string * string))
| CallListObjectsV2 (bucket : string)
| CallListObjectVersions (bucket prefix : string)
| CallGetObject (bucket key versionId : string)
| CallReadAll (bucket key versionId : string)
| CallStat (path : string)
| CallMkdirAll (path : string)
| CallCreate (path : string)
| CallWrite (path : string) (content : bytes)
| CallPlainOpen (path : string)
| CallPlainInit (path : string)
| CallWorktree (path : string)
| CallAdd (path : string)
| CallCommit (msg : CommitMessage) (when : Instant)
| CallCommitObject.

(** ** The world the program acts on

    [files] maps the path of a regular file to its content, [index] holds
    what is staged and [commits] is the log of the repository.
    Directories, and the files a repository keeps for itself, are not part
    of [files]: that [os.MkdirAll] made a directory or [git.PlainInit] a
    repository shows in [calls]. *)

Record World := {
  files : gmap string bytes;
  index : gmap string bytes;
  commits : list Commit;
  output : list Output;
  calls : list Call
}.

Definition emit (o : Output) (w : World) : World :=
  {| files := files w; index := index w; commits := commits w;
     output := output w ++ [o]; calls := calls w |}.

Definition call (c : Call) (w : World) : World :=
  {| files := files w; index := index w; commits := commits w;
     output := output w; calls := calls w ++ [c] |}.

Definition set_file (path : string) (content : bytes) (w : World) : World :=
  {| files := <[path := content]> (files w); index := index w;
     commits := commits w; output := output w; calls := calls w |}.

Definition set_index (ix : gmap string bytes) (w : World) : World :=
  {| files := files w; index := ix; commits := commits w;
     output := output w; calls := calls w |}.

Definition add_commit (c : Commit) (w : World) : World :=
  {| files := files w; index := index w; commits := commits w ++ [c];
     output := output w; calls := calls w |}.

(** ** The outside: S3, the operating system, go-git

    Every answer may depend on the arguments of the call and on the state
    of the world at the moment of the call. *)

Record Env := {
  filepath_Abs : string -> error + string;
  filepath_Dir : string -> string;
  filepath_Join : string -> string -> string;
  LoadDefaultConfig : World -> option (string * string) -> option error;
  ListObjectsV2 : World -> string -> error + list string;
  ListObjectVersions : World -> string -> string -> error + list ObjectVersion;
  GetObject : World -> string -> string -> string -> error + Body;
  Stat_IsNotExist : World -> string -> bool;
  os_MkdirAll : World -> string -> option error;
  os_Create : World -> string -> option error;
  File_Write : World -> string -> bytes -> option error;
  PlainOpen : World -> string -> option error;
  PlainInit : World -> string -> option error;
  Worktree : World -> string -> option error;
  Tree_Add : World -> string -> option error;
  Tree_Commit : World -> CommitMessage -> Instant -> option error;
  Repository_CommitObject : World -> option error
}.

(** ** Small helpers of the program *)

(** [errorMessage]: the message in red on standard output. *)
Definition errorMessage (text : string) (w : World) : World :=
  emit (ErrorMessage text) w.

Definition help (w : World) : World := emit Usage w.

(** [toLocalPath]: [RepositoryRoot/Bucket/Key] made absolute.  When
    [filepath.Abs] fails the method prints and returns a text that starts
    with [Error: ]. *)
Definition toLocalPath (env : Env) (svo : S3VersionedObject) (w : World)
  : string * World :=
  let path := RepositoryRoot svo +:+ "/" +:+ Bucket svo +:+ "/" +:+ Key svo in
  match filepath_Abs env path with
  | inr absFilename => (absFilename, w)
  | inl err => ("Error: " +:+ err, emit (Println err) (emit (Log (LogAbsPathFailed path)) w))
  end.

Definition toBasenamePath (svo : S3VersionedObject) : string := Key svo.

(** ** getS3Client *)

Definition getS3Client (env : Env) (profile region : string) (w : World)
  : option error * World :=
  let arg := if decide (profile = "") then None else Some (profile, region) in
  let w1 := call (CallLoadDefaultConfig arg) w in
  match LoadDefaultConfig env w arg with
  | Some err => (Some err, errorMessage err (emit (Log LogNoConfiguration) w1))
  | None => (None, w1)
  end.

(** ** queryS3Bucket *)

Definition queryS3Bucket (env : Env) (bucketName : string) (w : World)
  : list S3Object * option error * World :=
  let w1 := call (CallListObjectsV2 bucketName) w in
  match ListObjectsV2 env w bucketName with
  | inl err =>
      ([], Some err,
       errorMessage err (emit (Log (LogListObjectsFailed bucketName)) w1))
  | inr contents =>
      (map (fun k => {| obj_Key := k; obj_Bucket := bucketName |}) contents,
       None, w1)
  end.

(** ** sort.Slice

    [sort.Slice(x, less)] is library code.  Its documentation promises that
    the slice is sorted by [less] and says that the sort is not guaranteed
    to be stable: equal elements may be reversed from their original order.
    What the program relies on is exactly what is promised: the result is
    a rearrangement of the slice, and when [less] is asymmetric and its
    complement is transitive no element is [less] than one before it.
    [queryS3Versions] takes a routine with these two properties; the routine
    of the library itself, pattern-defeating quicksort, follows further
    down as [sort_Slice_func]. *)

Definition notAfter {A} (less : A -> A -> bool) (x y : A) : Prop :=
  less y x = false.

Record SortSlice := {
  sort_Slice : forall A : Type, (A -> A -> bool) -> list A -> list A;
  sort_Slice_perm : forall A (less : A -> A -> bool) (x : list A),
      sort_Slice A less x ≡ₚ x;
  sort_Slice_sorted : forall A (less : A -> A -> bool) (x : list A),
      (forall a b, less a b = true -> less b a = false) ->
      (forall a b c, less b a = false -> less c b = false -> less c a = false) ->
      StronglySorted (notAfter less) (sort_Slice A less x)
}.

(** ** queryS3Versions *)

Definition toVersioned (s3obj : S3Object) (repoPath : string) (vers : ObjectVersion)
  : S3VersionedObject :=
  {| Key := ov_Key vers;
     Bucket := obj_Bucket s3obj;
     VersionId := ov_VersionId vers;
     RepositoryRoot := repoPath;
     LastModified := ov_LastModified vers |}.

(** The [for _, s3obj := range objects] loop, with [s3Objects] as the
    accumulator. *)
Fixpoint listVersions (env : Env) (objects : list S3Object) (repoPath : string)
    (s3Objects : list S3VersionedObject) (w : World)
  : list S3VersionedObject * World :=
  match objects with
  | [] => (s3Objects, w)
  | s3obj :: rest =>
      let w1 := call (CallListObjectVersions (obj_Bucket s3obj) (obj_Key s3obj)) w in
      match ListObjectVersions env w (obj_Bucket s3obj) (obj_Key s3obj) with
      | inl err =>
          listVersions env rest repoPath s3Objects
            (errorMessage err (emit (Log LogNoConfiguration) w1))
      | inr versions =>
          listVersions env rest repoPath
            (s3Objects ++ map (toVersioned s3obj repoPath) versions) w1
      end
  end.

Definition lessLastModified (a b : S3VersionedObject) : bool :=
  Before (LastModified a) (LastModified b).

Definition queryS3Versions (srt : SortSlice) (env : Env) (objects : list S3Object)
    (repoPath : string) (w : World)
  : list S3VersionedObject * option error * World :=
  let '(s3Objects, w1) := listVersions env objects repoPath [] w in
  (sort_Slice srt _ lessLastModified s3Objects, None, w1).

(** ** downloadFile *)

Definition downloadFile (env : Env) (object : S3VersionedObject) (w : World)
  : option error * World :=
  let w1 := call (CallGetObject (Bucket object) (Key object) (VersionId object)) w in
  match GetObject env w (Bucket object) (Key object) (VersionId object) with
  | inl err =>
      (Some err,
       errorMessage err
         (emit (Log (LogGetObjectFailed (Bucket object) (Key object) (VersionId object))) w1))
  | inr result =>
      let '(filename, w2) := toLocalPath env object w1 in
      let dirname := filepath_Dir env filename in
      let w3 := call (CallStat dirname) w2 in
      let made :=
        if Stat_IsNotExist env w2 dirname
        then (os_MkdirAll env w3 dirname, call (CallMkdirAll dirname) w3)
        else (None, w3) in
      match made with
      | (Some err, w4) =>
          (Some err, errorMessage err (emit (Log (LogCreateFailed filename)) w4))
      | (None, w4) =>
          let w5 := call (CallCreate filename) w4 in
          match os_Create env w4 filename with
          | Some err =>
              (Some err, errorMessage err (emit (Log (LogCreateFailed filename)) w5))
          | None =>
              (* os.Create truncates the file *)
              let w6 := set_file filename [] w5 in
              let w7 := call (CallReadAll (Bucket object) (Key object) (VersionId object)) w6 in
              let body := body_read result in
              let w8 :=
                match body_err result with
                | Some err =>
                    errorMessage err
                      (emit (Log (LogReadBodyFailed (Key object) (VersionId object))) w7)
                | None => w7
                end in
              let w9 := call (CallWrite filename body) w8 in
              match File_Write env w8 filename body with
              | Some err => (Some err, w9)
              | None => (None, set_file filename body w9)
              end
          end
      end
  end.

(** ** applyGitChanges *)

(** The four places where [applyGitChanges] returns a non-nil error, each
    with the error it returns. *)
Inductive ApplyError :=
| DownloadError (err : error)
| StagingError (err : error)
| CommitError (err : error)
| CommitObjectError (err : error).

Definition go_error (e : ApplyError) : error :=
  match e with
  | DownloadError err | StagingError err | CommitError err | CommitObjectError err => err
  end.

(** [Tree.Add(path)] puts the content the work-tree file has at this moment
    into the index; a file that is not there is staged as removed. *)
Definition stage (env : Env) (container : gitContainer) (path : string) (w : World)
  : World :=
  match files w !! filepath_Join env (repo_dir container) path with
  | Some content => set_index (<[path := content]> (index w)) w
  | None => set_index (delete path (index w)) w
  end.

(** The [for _, object := range objects] loop; [files] and [commitDate] are
    the two variables it updates. *)
Fixpoint stageObjects (env : Env) (container : gitContainer)
    (objects : list S3VersionedObject) (files : list string) (commitDate : Instant)
    (w : World) : (ApplyError + list string * Instant) * World :=
  match objects with
  | [] => (inr (files, commitDate), w)
  | object :: rest =>
      match downloadFile env object w with
      | (Some err, w1) =>
          let '(localPath, w2) := toLocalPath env object w1 in
          (inl (DownloadError err),
           errorMessage err
             (emit (Log (LogDownloadFailed (Bucket object) (Key object)
                           (VersionId object) localPath)) w2))
      | (None, w1) =>
          let '(localPath, w2) := toLocalPath env object w1 in
          let files := (files ++ [localPath])%list in
          let commitDate := LastModified object in
          let w3 := call (CallAdd (toBasenamePath object)) w2 in
          match Tree_Add env w2 (toBasenamePath object) with
          | Some err =>
              let '(localPath', w4) := toLocalPath env object w3 in
              (inl (StagingError err),
               errorMessage err (emit (Log (LogStagingFailed localPath')) w4))
          | None =>
              stageObjects env container rest files commitDate
                (stage env container (toBasenamePath object) w3)
          end
      end
  end.

Definition applyGitChanges (env : Env) (container : gitContainer)
    (objects : list S3VersionedObject) (w : World) : option ApplyError * World :=
  match stageObjects env container objects [] time_zero w with
  | (inl err, w1) => (Some err, w1)
  | (inr (files, commitDate), w1) =>
      let commitMsg := ModificationOn commitDate in
      let w2 := call (CallCommit commitMsg commitDate) w1 in
      match Tree_Commit env w1 commitMsg commitDate with
      | Some err =>
          (Some (CommitError err), errorMessage err (emit (Log LogCommitStageFailed) w2))
      | None =>
          let commit :=
            {| message := commitMsg;
               author_Name := "s3-versions-to-git";
               author_Email := "ahughesalex@gmail.com";
               author_When := commitDate;
               tree := index w2 |} in
          let w3 := add_commit commit w2 in
          let w4 := call CallCommitObject w3 in
          match Repository_CommitObject env w3 with
          | Some err =>
              (Some (CommitObjectError err),
               errorMessage err (emit (Log LogCommitRepoFailed) w4))
          | None => (None, emit (Log (LogApplied files)) w4)
          end
      end
  end.

(** ** replayS3Changes *)

(** A changeset is a buffer the loop handed to [applyGitChanges], with the
    boundary [currentDate] had at that moment. *)
Record Changeset := {
  timestamp : Instant;
  members : list S3VersionedObject
}.

Inductive ReplayExit :=
| InputExhausted
| Aborted (err : ApplyError).

(** What a run of the loop leaves behind: the two local variables, how the
    function was left, and the world.  [applied] is not a variable of the
    program; it lists the changesets for which [applyGitChanges] returned
    nil, in order. *)
Record ReplayRun := {
  applied : list Changeset;
  currentDate : Instant;
  objectModifications : list S3VersionedObject;
  exit : ReplayExit;
  world : World
}.

Fixpoint replayLoop (env : Env) (container : gitContainer)
    (versions : list S3VersionedObject) (done : list Changeset)
    (currentDate : Instant) (objectModifications : list S3VersionedObject)
    (w : World) : ReplayRun :=
  match versions with
  | [] =>
      {| applied := done; currentDate := currentDate;
         objectModifications := objectModifications;
         exit := InputExhausted; world := w |}
  | version :: rest =>
      let currentDate :=
        if time_eqb currentDate time_zero then LastModified version else currentDate in
      if After (LastModified version) currentDate then
        match applyGitChanges env container objectModifications w with
        | (Some err, w1) =>
            {| applied := done; currentDate := currentDate;
               objectModifications := objectModifications;
               exit := Aborted err;
               world := errorMessage (go_error err)
                          (emit (Log (LogApplyFailed (length objectModifications))) w1) |}
        | (None, w1) =>
            replayLoop env container rest
              (done ++ [{| timestamp := currentDate; members := objectModifications |}])
              (LastModified version) [version] w1
        end
      else
        replayLoop env container rest done currentDate
          (objectModifications ++ [version]) w
  end.

Definition replayS3Changes (env : Env) (versions : list S3VersionedObject)
    (container : gitContainer) (w : World) : ReplayRun :=
  replayLoop env container versions [] time_zero [] w.

(** ** main *)

Record Flags := {
  bucketFlag : string;
  outputFlag : string;
  profileFlag : string;
  regionFlag : string;
  helpFlag : bool
}.

(** The places where [main] returns.  [ReachedEnd] is the end of the
    function body, after the call of [replayS3Changes]; it carries what the
    three pipeline calls returned. *)
Inductive MainExit :=
| ReturnHelp
| ReturnNoBucket
| ReturnNoOutputDir
| ReturnMkdirFailed
| ReturnInitFailed
| ReturnWorktreeFailed
| ReturnNoClient
| ReachedEnd (rawObjects : list S3Object) (listErr : option error)
    (sortedVersions : list S3VersionedObject) (run : ReplayRun).

Definition pipeline (srt : SortSlice) (env : Env) (bucket output : string)
    (repo : gitContainer) (w : World) : MainExit * World :=
  let '(rawObjects, listErr, w1) := queryS3Bucket env bucket w in
  let '(sortedVersions, err, w2) := queryS3Versions srt env rawObjects output w1 in
  let w3 :=
    match err with
    | Some e => errorMessage e (emit (Log LogVersionsFailed) w2)
    | None => w2
    end in
  let run := replayS3Changes env sortedVersions repo w3 in
  (ReachedEnd rawObjects listErr sortedVersions run, world run).

Definition openRepository (srt : SortSlice) (env : Env) (flags : Flags)
    (output : string) (w : World) : MainExit * World :=
  let repoPath := filepath_Join env output (bucketFlag flags) in
  let w1 := call (CallStat repoPath) w in
  let made :=
    if Stat_IsNotExist env w repoPath
    then (os_MkdirAll env w1 repoPath, call (CallMkdirAll repoPath) w1)
    else (None, w1) in
  match made with
  | (Some err, w2) =>
      (ReturnMkdirFailed, errorMessage err (emit (Log (LogMkdirFailed repoPath)) w2))
  | (None, w2) =>
      let w3 := call (CallPlainOpen repoPath) w2 in
      let opened :=
        match PlainOpen env w2 repoPath with
        | Some _ => (PlainInit env w3 repoPath, call (CallPlainInit repoPath) w3)
        | None => (None, w3)
        end in
      match opened with
      | (Some err, w4) =>
          (ReturnInitFailed, errorMessage err (emit (Log (LogInitFailed repoPath)) w4))
      | (None, w4) =>
          let w5 := call (CallWorktree repoPath) w4 in
          match Worktree env w4 repoPath with
          | Some err =>
              (ReturnWorktreeFailed,
               errorMessage err (emit (Log (LogWorktreeFailed repoPath)) w5))
          | None =>
              let repo := {| repo_dir := repoPath |} in
              match getS3Client env (profileFlag flags) (regionFlag flags) w5 with
              | (Some _, w6) => (ReturnNoClient, w6)
              | (None, w6) => pipeline srt env (bucketFlag flags) output repo w6
              end
          end
      end
  end.

Definition main (srt : SortSlice) (env : Env) (flags : Flags) (w : World)
  : MainExit * World :=
  if helpFlag flags then (ReturnHelp, help w)
  else if decide (bucketFlag flags = "") then
    (ReturnNoBucket, errorMessage "Error: Please provide an S3 bucket" (help w))
  else if decide (outputFlag flags = "") then
    match filepath_Abs env "" with
    | inl _ => (ReturnNoOutputDir, errorMessage "Error: Please provide an output directory" w)
    | inr abspath => openRepository srt env flags abspath w
    end
  else openRepository srt env flags (outputFlag flags) w.

(** ** Changesets of a run *)

Definition pending (run : ReplayRun) : Changeset :=
  {| timestamp := currentDate run; members := objectModifications run |}.

(** The buffers that reached [applyGitChanges]: the applied ones and, when
    the run was aborted, the one whose replay failed. *)
Definition attempted (run : ReplayRun) : list Changeset :=
  match exit run with
  | InputExhausted => applied run
  | Aborted _ => applied run ++ [pending run]
  end.

(** The buffers for which [Tree.Commit] succeeded. *)
Definition committed (run : ReplayRun) : list Changeset :=
  match exit run with
  | Aborted (CommitObjectError _) => applied run ++ [pending run]
  | _ => applied run
  end.

(** Every buffer the loop built, the last one being the buffer it held when
    it stopped. *)
Definition changesets (run : ReplayRun) : list Changeset :=
  applied run ++ [pending run].

Definition commitDateOf (objects : list S3VersionedObject) : Instant :=
  default time_zero (LastModified <$> last objects).

Definition ascending (versions : list S3VersionedObject) : Prop :=
  StronglySorted (fun a b => LastModified a <= LastModified b) versions.

(** Records with the same timestamp come out in the order they went in. *)
Definition keepsTieOrder (input sorted : list S3VersionedObject) : Prop :=
  forall t : Instant,
    filter (fun v => LastModified v = t) sorted
    = filter (fun v => LastModified v = t) input.

(** ** Vocabulary of the properties *)

(** Nothing the program does removes a printed line, a recorded call or a
    commit: the world only grows. *)
Definition grows (w w' : World) : Prop :=
  output w `prefix_of` output w' /\ calls w `prefix_of` calls w'
  /\ commits w `prefix_of` commits w'.

(** A step that keeps the commits and the index as they are. *)
Definition keepsGit (w w' : World) : Prop :=
  commits w' = commits w /\ index w' = index w.

Definition fixedAuthor (c : Commit) : Prop :=
  author_Name c = "s3-versions-to-git" /\ author_Email c = "ahughesalex@gmail.com".

(** A commit made for the buffer [objects]. *)
Definition commitFor (objects : list S3VersionedObject) (c : Commit) : Prop :=
  message c = ModificationOn (commitDateOf objects)
  /\ author_When c = commitDateOf objects
  /\ fixedAuthor c.

(** Whether a call of [applyGitChanges] with this result got past
    [Tree.Commit]. *)
Definition createsCommit (result : option ApplyError) : bool :=
  match result with
  | None | Some (CommitObjectError _) => true
  | Some _ => false
  end.

(** A property of the loop variables and of the input still to be read that
    every turn of the loop keeps: when the record at the head of the input
    opens a new changeset, the property holds at the call of
    [applyGitChanges] and again once the buffer was replaced; otherwise it
    holds after the record was appended. *)
Definition StepClosed
    (P : list Changeset -> Instant -> list S3VersionedObject ->
         list S3VersionedObject -> Prop) : Prop :=
  forall done cd buf version rest,
    P done cd buf (version :: rest) ->
    let cd' := if time_eqb cd time_zero then LastModified version else cd in
    if After (LastModified version) cd'
    then P done cd' buf (version :: rest)
         /\ P (done ++ [{| timestamp := cd'; members := buf |}])
              (LastModified version) [version] rest
    else P done cd' (buf ++ [version]) rest.

(** The changesets closed so far, the buffer and the unread input make up
    the input, in this order. *)
Definition Partitions (versions : list S3VersionedObject)
    (done : list Changeset) (cd : Instant)
    (buf rest : list S3VersionedObject) : Prop :=
  versions = concat (map members done) ++ buf ++ rest.

(** The buffer is empty only before the first record was read, and a
    changeset is closed only when the buffer holds a record. *)
Definition Filled (done : list Changeset) (cd : Instant)
    (buf rest : list S3VersionedObject) : Prop :=
  (buf = [] -> cd = time_zero /\ done = [])
  /\ Forall (fun cs => members cs <> []) done.

(** A closed changeset, seen from the boundary [cd] the loop has now. *)
Definition closedAt (cd : Instant) (cs : Changeset) : Prop :=
  timestamp cs <> time_zero /\ timestamp cs < cd
  /\ exists x, last (members cs) = Some x /\ LastModified x = timestamp cs.

(** On ascending input the boundary is the timestamp of the record that
    was buffered last, every closed changeset carries a boundary that is not
    the zero instant and is the timestamp of its last member, and the
    boundaries increase strictly. *)
Definition Dated (done : list Changeset) (cd : Instant)
    (buf rest : list S3VersionedObject) : Prop :=
  ascending rest
  /\ (buf = [] -> cd = time_zero /\ done = [])
  /\ (forall x, last buf = Some x ->
        LastModified x = cd /\ Forall (fun v => cd <= LastModified v) rest)
  /\ Forall (closedAt cd) done
  /\ StronglySorted Z.lt (map timestamp done).

Definition wellDated (cs : Changeset) : Prop :=
  timestamp cs <> time_zero
  /\ exists x, last (members cs) = Some x /\ LastModified x = timestamp cs.

(** All members of the changeset carry its boundary. *)
Definition sameInstant (cs : Changeset) : Prop :=
  Forall (fun x => LastModified x = timestamp cs) (members cs).

(** When no record carries the zero instant, all members of a changeset and
    all records in the buffer carry the boundary. *)
Definition Uniform (done : list Changeset) (cd : Instant)
    (buf rest : list S3VersionedObject) : Prop :=
  Forall (fun v => LastModified v <> time_zero) (buf ++ rest)
  /\ Forall (fun x => LastModified x = cd) buf
  /\ Forall sameInstant done.

(** The path [toLocalPath] returns; it does not depend on the world. *)
Definition localPathOf (env : Env) (svo : S3VersionedObject) : string :=
  match filepath_Abs env
          (RepositoryRoot svo +:+ "/" +:+ Bucket svo +:+ "/" +:+ Key svo) with
  | inr absFilename => absFilename
  | inl err => "Error: " +:+ err
  end.

(** The requests to S3 among the calls. *)
Definition isStorageCall (c : Call) : bool :=
  match c with
  | CallListObjectsV2 _ | CallListObjectVersions _ _
  | CallGetObject _ _ _ | CallReadAll _ _ _ => true
  | _ => false
  end.

(** The calls the replay of changesets is made of: fetching an object,
    the file system, the work tree and the repository. *)
Definition isReplayCall (c : Call) : bool :=
  match c with
  | CallGetObject _ _ _ | CallReadAll _ _ _ | CallStat _ | CallMkdirAll _
  | CallCreate _ | CallWrite _ _ | CallAdd _ | CallCommit _ _
  | CallCommitObject => true
  | _ => false
  end.

(** The [GetObject] requests among the calls, in order. *)
Definition fetches (k : list Call) : list (string * string * string) :=
  omap (fun c => match c with
                 | CallGetObject bucket key versionId => Some (bucket, key, versionId)
                 | _ => None
                 end) k.

(** What [GetObject] is asked for to fetch a record. *)
Definition fetchOf (svo : S3VersionedObject) : string * string * string :=
  (Bucket svo, Key svo, VersionId svo).

(** The command line with another value for [--region]. *)
Definition withRegion (region : string) (flags : Flags) : Flags :=
  {| bucketFlag := bucketFlag flags; outputFlag := outputFlag flags;
     profileFlag := profileFlag flags; regionFlag := region;
     helpFlag := helpFlag flags |}.

(** The step [w] to [w'] recorded the calls [k] and no others. *)
Definition called (k : list Call) (w w' : World) : Prop :=
  calls w' = calls w ++ k.

(** The replay of a buffer fails with [err]: one of its objects cannot be
    fetched and written, or cannot be staged, after the objects before it
    went through; or all objects went through and the commit cannot be
    made; or the commit was made and cannot be looked up. *)
Inductive ReplayFails (env : Env) (container : gitContainer)
    (buffer : list S3VersionedObject) (w : World) : ApplyError -> Prop :=
| DownloadFails before object after fs date wp e :
    buffer = before ++ object :: after ->
    stageObjects env container before [] time_zero w = (inr (fs, date), wp) ->
    (downloadFile env object wp).1 = Some e ->
    ReplayFails env container buffer w (DownloadError e)
| StagingFails before object after fs date wp w1 e :
    buffer = before ++ object :: after ->
    stageObjects env container before [] time_zero w = (inr (fs, date), wp) ->
    downloadFile env object wp = (None, w1) ->
    Tree_Add env (toLocalPath env object w1).2 (toBasenamePath object) = Some e ->
    ReplayFails env container buffer w (StagingError e)
| CommitFails fs date wp e :
    stageObjects env container buffer [] time_zero w = (inr (fs, date), wp) ->
    Tree_Commit env wp (ModificationOn date) date = Some e ->
    ReplayFails env container buffer w (CommitError e)
| CommitObjectFails fs date wp e :
    stageObjects env container buffer [] time_zero w = (inr (fs, date), wp) ->
    Tree_Commit env wp (ModificationOn date) date = None ->
    Repository_CommitObject env
      (add_commit
         {| message := ModificationOn date;
            author_Name := "s3-versions-to-git";
            author_Email := "ahughesalex@gmail.com";
            author_When := date;
            tree := index (call (CallCommit (ModificationOn date) date) wp) |}
         (call (CallCommit (ModificationOn date) date) wp)) = Some e ->
    ReplayFails env container buffer w (CommitObjectError e).


(** ** A stable sorting routine *)

Section Insertion.
Context {A : Type} (less : A -> A -> bool).

(** Insert behind the elements that are not greater: ties keep their order. *)
Fixpoint insertBehind (a : A) (l : list A) : list A :=
  match l with
  | [] => [a]
  | b :: l' => if less a b then a :: l else b :: insertBehind a l'
  end.

Definition insertionSort (x : list A) : list A :=
  fold_left (fun acc a => insertBehind a acc) x [].

End Insertion.

(** ** sort.Slice as the Go library runs it

    [sort.Slice(x, less)] calls [pdqsort_func] on the slice with a limit of
    [bits.Len(len(x))] bad pivots.  The routine works through [Less(i, j)]
    and [Swap(i, j)] on positions of the slice; a slice is a list here, and
    each loop of the library is a function that carries the variables of
    the loop.  [breakPatterns_func] swaps three elements at positions it
    draws from a pseudo-random sequence whose constants differ between
    releases of the library: it is a parameter. *)

Section Pdqsort.
Local Open Scope nat_scope.
Context {A : Type} (less : A -> A -> bool).
Variable breakPatterns_func : list A -> nat -> nat -> list A.

Definition Less (data : list A) (i j : nat) : bool :=
  match data !! i, data !! j with
  | Some x, Some y => less x y
  | _, _ => false
  end.

Definition Swap (data : list A) (i j : nat) : list A :=
  match data !! i, data !! j with
  | Some x, Some y => <[i := y]> (<[j := x]> data)
  | _, _ => data
  end.

(** [for j := i; j > a && data.Less(j, j-1); j-- { data.Swap(j, j-1) }] *)
Fixpoint insertionSort_inner (data : list A) (a j : nat) : list A :=
  match j with
  | 0 => data
  | S j' =>
      if (a <? j) && Less data j j'
      then insertionSort_inner (Swap data j j') a j'
      else data
  end.

Definition insertionSort_func (data : list A) (a b : nat) : list A :=
  fold_left (fun data i => insertionSort_inner data a i)
    (seq (a + 1) (b - (a + 1))) data.

Fixpoint siftDown_loop (fuel : nat) (data : list A) (root hi first : nat)
  : list A :=
  match fuel with
  | 0 => data
  | S fuel =>
      let child := 2 * root + 1 in
      if hi <=? child then data
      else
        let child :=
          if (child + 1 <? hi) && Less data (first + child) (first + child + 1)
          then child + 1 else child in
        if negb (Less data (first + root) (first + child)) then data
        else siftDown_loop fuel (Swap data (first + root) (first + child))
               child hi first
  end.

Definition siftDown_func (data : list A) (lo hi first : nat) : list A :=
  siftDown_loop hi data lo hi first.

Definition heapSort_func (data : list A) (a b : nat) : list A :=
  let first := a in
  let lo := 0 in
  let hi := b - a in
  let data :=
    fold_left (fun data i => siftDown_func data i hi first)
      (rev (seq 0 ((hi - 1) / 2 + 1))) data in
  fold_left (fun data i => siftDown_func (Swap data first (first + i)) lo i first)
    (rev (seq 0 hi)) data.

Inductive sortedHint := unknownHint | increasingHint | decreasingHint.

Definition order2_func (data : list A) (a b swaps : nat) : nat * nat * nat :=
  if Less data b a then (b, a, S swaps) else (a, b, swaps).

Definition median_func (data : list A) (a b c swaps : nat) : nat * nat :=
  let '(a, b, swaps) := order2_func data a b swaps in
  let '(b, c, swaps) := order2_func data b c swaps in
  let '(a, b, swaps) := order2_func data a b swaps in
  (b, swaps).

Definition medianAdjacent_func (data : list A) (a swaps : nat) : nat * nat :=
  median_func data (a - 1) a (a + 1) swaps.

Definition choosePivot_func (data : list A) (a b : nat) : nat * sortedHint :=
  let l := b - a in
  let i := a + l / 4 * 1 in
  let j := a + l / 4 * 2 in
  let k := a + l / 4 * 3 in
  let '(j, swaps) :=
    if 8 <=? l then
      let '(i, j, k, swaps) :=
        if 50 <=? l then
          let '(i, swaps) := medianAdjacent_func data i 0 in
          let '(j, swaps) := medianAdjacent_func data j swaps in
          let '(k, swaps) := medianAdjacent_func data k swaps in
          (i, j, k, swaps)
        else (i, j, k, 0) in
      median_func data i j k swaps
    else (j, 0) in
  if swaps =? 0 then (j, increasingHint)
  else if swaps =? 4 * 3 then (j, decreasingHint)
  else (j, unknownHint).

Fixpoint reverseRange_loop (fuel : nat) (data : list A) (i j : nat) : list A :=
  match fuel with
  | 0 => data
  | S fuel =>
      if i <? j then reverseRange_loop fuel (Swap data i j) (i + 1) (j - 1)
      else data
  end.

Definition reverseRange_func (data : list A) (a b : nat) : list A :=
  reverseRange_loop (b - a) data a (b - 1).

(** [for i <= j && p(i) { i++ }] and [for i <= j && p(j) { j-- }] *)
Fixpoint forward (fuel : nat) (p : nat -> bool) (i j : nat) : nat :=
  match fuel with
  | 0 => i
  | S fuel => if (i <=? j) && p i then forward fuel p (i + 1) j else i
  end.

Fixpoint backward (fuel : nat) (p : nat -> bool) (i j : nat) : nat :=
  match fuel with
  | 0 => j
  | S fuel => if (i <=? j) && p j then backward fuel p i (j - 1) else j
  end.

(** [for j := i - 1; j >= 1; j-- { if !data.Less(j, j-1) { break };
    data.Swap(j, j-1) }] *)
Fixpoint shiftLeft (data : list A) (j : nat) : list A :=
  match j with
  | 0 => data
  | S j' => if negb (Less data j j') then data else shiftLeft (Swap data j j') j'
  end.

(** [for j := i + 1; j < b; j++ { if !data.Less(j, j-1) { break };
    data.Swap(j, j-1) }] *)
Fixpoint shiftRight (fuel : nat) (data : list A) (j b : nat) : list A :=
  match fuel with
  | 0 => data
  | S fuel =>
      if j <? b then
        if negb (Less data j (j - 1)) then data
        else shiftRight fuel (Swap data j (j - 1)) (j + 1) b
      else data
  end.

Fixpoint partialInsertionSort_loop (steps : nat) (data : list A) (i a b : nat)
  : list A * bool :=
  match steps with
  | 0 => (data, false)
  | S steps =>
      let i := forward b (fun i => negb (Less data i (i - 1))) i (b - 1) in
      if i =? b then (data, true)
      else if b - a <? 50 then (data, false)
      else
        let data := Swap data i (i - 1) in
        let data := if 2 <=? i - a then shiftLeft data (i - 1) else data in
        let data := if 2 <=? b - i then shiftRight b data (i + 1) b else data in
        partialInsertionSort_loop steps data i a b
  end.

Definition partialInsertionSort_func (data : list A) (a b : nat) : list A * bool :=
  partialInsertionSort_loop 5 data (a + 1) a b.

Fixpoint partitionEqual_loop (fuel : nat) (data : list A) (a i j : nat)
  : list A * nat :=
  match fuel with
  | 0 => (data, i)
  | S fuel =>
      let i := forward (S j) (fun i => negb (Less data a i)) i j in
      let j := backward (S j) (fun j => Less data a j) i j in
      if j <? i then (data, i)
      else partitionEqual_loop fuel (Swap data i j) a (i + 1) (j - 1)
  end.

Definition partitionEqual_func (data : list A) (a b pivot : nat) : list A * nat :=
  let data := Swap data a pivot in
  partitionEqual_loop b data a (a + 1) (b - 1).

Fixpoint partition_loop (fuel : nat) (data : list A) (a i j : nat)
  : list A * nat :=
  match fuel with
  | 0 => (data, j)
  | S fuel =>
      let i := forward (S j) (fun i => Less data i a) i j in
      let j := backward (S j) (fun j => negb (Less data j a)) i j in
      if j <? i then (data, j)
      else partition_loop fuel (Swap data i j) a (i + 1) (j - 1)
  end.

Definition partition_func (data : list A) (a b pivot : nat)
  : list A * nat * bool :=
  let data := Swap data a pivot in
  let i := a + 1 in
  let j := b - 1 in
  let i := forward (S j) (fun i => Less data i a) i j in
  let j := backward (S j) (fun j => negb (Less data j a)) i j in
  if j <? i then (Swap data j a, j, true)
  else
    let data := Swap data i j in
    let '(data, j) := partition_loop b data a (i + 1) (j - 1) in
    (Swap data j a, j, false).

(** The loop of [pdqsort_func] with its two flags; [fuel] bounds the
    turns of the loop and the depth of the calls, each of which works on a
    shorter piece of the slice. *)
Fixpoint pdqsort_loop (fuel : nat) (data : list A) (a b limit : nat)
    (wasBalanced wasPartitioned : bool) : list A :=
  match fuel with
  | 0 => data
  | S fuel =>
      let length := b - a in
      if length <=? 12 then insertionSort_func data a b
      else if limit =? 0 then heapSort_func data a b
      else
        let '(data, limit) :=
          if negb wasBalanced then (breakPatterns_func data a b, limit - 1)
          else (data, limit) in
        let '(pivot, hint) := choosePivot_func data a b in
        let '(data, pivot, hint) :=
          match hint with
          | decreasingHint =>
              (reverseRange_func data a b, (b - 1) - (pivot - a), increasingHint)
          | _ => (data, pivot, hint)
          end in
        let '(data, sorted) :=
          match hint with
          | increasingHint =>
              if wasBalanced && wasPartitioned
              then partialInsertionSort_func data a b else (data, false)
          | _ => (data, false)
          end in
        if sorted then data
        else if (0 <? a) && negb (Less data (a - 1) pivot) then
          let '(data, mid) := partitionEqual_func data a b pivot in
          pdqsort_loop fuel data mid b limit wasBalanced wasPartitioned
        else
          let '(data, mid, alreadyPartitioned) := partition_func data a b pivot in
          let leftLen := mid - a in
          let rightLen := b - mid in
          let balanceThreshold := length / 8 in
          if leftLen <? rightLen then
            let data := pdqsort_loop fuel data a mid limit true true in
            pdqsort_loop fuel data (mid + 1) b limit
              (balanceThreshold <=? leftLen) alreadyPartitioned
          else
            let data := pdqsort_loop fuel data (mid + 1) b limit true true in
            pdqsort_loop fuel data a mid limit
              (balanceThreshold <=? rightLen) alreadyPartitioned
  end.

Definition pdqsort_func (data : list A) (a b limit : nat) : list A :=
  pdqsort_loop (S (b - a)) data a b limit true true.

(** [bits.Len]: the number of bits needed to write [n]. *)
Definition bits_Len (n : nat) : nat :=
  match n with
  | 0 => 0
  | _ => S (Nat.log2 n)
  end.

(** [sort.Slice] *)
Definition sort_Slice_func (x : list A) : list A :=
  let length := length x in
  let limit := bits_Len length in
  pdqsort_func x 0 length limit.

End Pdqsort.

(** The routine of the library at work on a slice [x]: it is run on the
    positions [0 .. len(x)-1], compared through the elements of [x] they
    stand for, and the elements are then put in the order of the positions.
    The library returns the positions rearranged and in order; the test
    for that is here so that the two promises of [sort.Slice] need no
    proof about quicksort, and when it holds the result is that of the
    library. *)
Definition inOrder {A} (less : A -> A -> bool) (x : list A) (d : A)
    (order : list nat) : bool :=
  bool_decide (order ≡ₚ seq 0 (length x))
  && bool_decide
       (StronglySorted (fun i j => less (nth j x d) (nth i x d) = false) order).

Definition goSort (breakPatterns : forall A : Type, list A -> nat -> nat -> list A)
    {A} (less : A -> A -> bool) (x : list A) : list A :=
  match x with
  | [] => []
  | d :: _ =>
      let order :=
        sort_Slice_func (fun i j => less (nth i x d) (nth j x d))
          (breakPatterns nat) (seq 0 (length x)) in
      if inOrder less x d order then map (fun i => nth i x d) order
      else insertionSort less x
  end.

(** ** A concrete outside world

    A bucket whose content is given by tables, a file system in which every
    directory exists and every operation succeeds, and a repository that
    accepts everything.  Paths are Unix paths that are already absolute. *)

Fixpoint dirPrefix (path : string) : option string :=
  match path with
  | EmptyString => None
  | String c rest =>
      match dirPrefix rest with
      | Some d => Some (String c d)
      | None => if String.eqb (String c EmptyString) "/" then Some EmptyString else None
      end
  end.

Definition unixDir (path : string) : string := default "." (dirPrefix path).
Definition unixJoin (a b : string) : string := a +:+ "/" +:+ b.

Definition emptyWorld : World :=
  {| files := ∅; index := ∅; commits := []; output := []; calls := [] |}.

Definition quietEnv (listing : error + list string)
    (versions : string -> error + list ObjectVersion)
    (content : string -> string -> error + Body) : Env :=
  {| filepath_Abs := fun p => inr p;
     filepath_Dir := unixDir;
     filepath_Join := unixJoin;
     LoadDefaultConfig := fun _ _ => None;
     ListObjectsV2 := fun _ _ => listing;
     ListObjectVersions := fun _ _ prefix => versions prefix;
     GetObject := fun _ _ key versionId => content key versionId;
     Stat_IsNotExist := fun _ _ => false;
     os_MkdirAll := fun _ _ => None;
     os_Create := fun _ _ => None;
     File_Write := fun _ _ _ => None;
     PlainOpen := fun _ _ => None;
     PlainInit := fun _ _ => None;
     Worktree := fun _ _ => None;
     Tree_Add := fun _ _ => None;
     Tree_Commit := fun _ _ _ => None;
     Repository_CommitObject := fun _ => None |}.

Definition T1 : Instant := 1700000000.
Definition T2 : Instant := 1700000060.

Definition record (key versionId : string) (t : Instant) : S3VersionedObject :=
  {| Key := key; Bucket := "logs"; VersionId := versionId;
     RepositoryRoot := "/out"; LastModified := t |}.

Definition textOf (key versionId : string) : bytes :=
  String.list_byte_of_string (key +:+ "@" +:+ versionId).

Definition wholeBody (key versionId : string) : error + Body :=
  inr {| body_read := textOf key versionId; body_err := None |}.

(** The bucket of the scenario: [a.txt] written at [T1] and again at [T2],
    [b.txt] written at [T1].  S3 lists the newest version first. *)
Definition scenarioVersions (key : string) : error + list ObjectVersion :=
  if decide (key = "a.txt") then
    inr [ {| ov_Key := "a.txt"; ov_VersionId := "a2"; ov_LastModified := T2 |};
          {| ov_Key := "a.txt"; ov_VersionId := "a1"; ov_LastModified := T1 |} ]
  else if decide (key = "b.txt") then
    inr [ {| ov_Key := "b.txt"; ov_VersionId := "b1"; ov_LastModified := T1 |} ]
  else inl "NoSuchKey".

Definition scenarioEnv : Env :=
  quietEnv (inr ["a.txt"; "b.txt"; "c.txt"]) scenarioVersions wholeBody.

Definition scenarioRepo : gitContainer := {| repo_dir := "/out/logs" |}.

Definition scenarioInput : list S3VersionedObject :=
  [record "a.txt" "a1" T1; record "b.txt" "b1" T1; record "a.txt" "a2" T2].

(** A bucket with one key that has thirteen versions, one written every
    minute; S3 lists the newest first.  The versions [v09] and [v08] were
    written in the same minute. *)
Definition versionAt (key versionId : string) (minute : Z) : ObjectVersion :=
  {| ov_Key := key; ov_VersionId := versionId;
     ov_LastModified := T1 + 60 * minute |}.

Definition busyVersions (key : string) : error + list ObjectVersion :=
  inr [ versionAt key "v13" 13; versionAt key "v12" 12; versionAt key "v11" 11;
        versionAt key "v10" 10; versionAt key "v09" 9; versionAt key "v08" 9;
        versionAt key "v07" 8; versionAt key "v06" 7; versionAt key "v05" 6;
        versionAt key "v04" 5; versionAt key "v03" 4; versionAt key "v02" 3;
        versionAt key "v01" 2 ].

Definition busyEnv : Env := quietEnv (inr ["a.txt"]) busyVersions wholeBody.

(** Variations of the scenario. *)

Definition T0 : Instant := 1690000000.

(** One more object, written before the others. *)
Definition longerInput : list S3VersionedObject :=
  record "c.txt" "c0" T0 :: scenarioInput.

(** The content of [b.txt] cannot be fetched. *)
Definition deniedContent (key versionId : string) : error + Body :=
  if decide (key = "b.txt") then inl "AccessDenied" else wholeBody key versionId.

Definition deniedEnv : Env :=
  quietEnv (inr ["a.txt"; "b.txt"; "c.txt"]) scenarioVersions deniedContent.

(** The connection breaks after three bytes of every body. *)
Definition brokenBody (key versionId : string) : error + Body :=
  inr {| body_read := take 3 (textOf key versionId);
         body_err := Some "unexpected EOF" |}.

Definition brokenEnv : Env :=
  quietEnv (inr ["a.txt"; "b.txt"; "c.txt"]) scenarioVersions brokenBody.

(** The bucket cannot be listed. *)
Definition unlistableEnv : Env :=
  quietEnv (inl "AccessDenied") scenarioVersions wholeBody.

Definition scenarioFlags : Flags :=
  {| bucketFlag := "logs"; outputFlag := "/out"; profileFlag := "";
     regionFlag := "us-west-2"; helpFlag := false |}.

Definition noBucketFlags : Flags :=
  {| bucketFlag := ""; outputFlag := "/out"; profileFlag := "";
     regionFlag := "us-west-2"; helpFlag := false |}.

Definition helpNoBucketFlags : Flags :=
  {| bucketFlag := ""; outputFlag := "/out"; profileFlag := "";
     regionFlag := "us-west-2"; helpFlag := true |}.

(** A record that carries the zero instant, followed by a later one. *)
Definition zeroInput : list S3VersionedObject :=
  [record "a.txt" "a0" time_zero; record "b.txt" "b1" T1].

(** The scenario in a process that cannot tell its working directory:
    [filepath.Abs] fails. *)
Definition noCwdEnv : Env :=
  {| filepath_Abs := fun _ => inl "getwd: no such file or directory";
     filepath_Dir := filepath_Dir scenarioEnv;
     filepath_Join := filepath_Join scenarioEnv;
     LoadDefaultConfig := LoadDefaultConfig scenarioEnv;
     ListObjectsV2 := ListObjectsV2 scenarioEnv;
     ListObjectVersions := ListObjectVersions scenarioEnv;
     GetObject := GetObject scenarioEnv;
     Stat_IsNotExist := Stat_IsNotExist scenarioEnv;
     os_MkdirAll := os_MkdirAll scenarioEnv;
     os_Create := os_Create scenarioEnv;
     File_Write := File_Write scenarioEnv;
     PlainOpen := PlainOpen scenarioEnv;
     PlainInit := PlainInit scenarioEnv;
     Worktree := Worktree scenarioEnv;
     Tree_Add := Tree_Add scenarioEnv;
     Tree_Commit := Tree_Commit scenarioEnv;
     Repository_CommitObject := Repository_CommitObject scenarioEnv |}.


(** The scenario with a repository in which the second commit cannot be
    looked up after it was made. *)
Definition lostCommitEnv : Env :=
  {| filepath_Abs := filepath_Abs scenarioEnv;
     filepath_Dir := filepath_Dir scenarioEnv;
     filepath_Join := filepath_Join scenarioEnv;
     LoadDefaultConfig := LoadDefaultConfig scenarioEnv;
     ListObjectsV2 := ListObjectsV2 scenarioEnv;
     ListObjectVersions := ListObjectVersions scenarioEnv;
     GetObject := GetObject scenarioEnv;
     Stat_IsNotExist := Stat_IsNotExist scenarioEnv;
     os_MkdirAll := os_MkdirAll scenarioEnv;
     os_Create := os_Create scenarioEnv;
     File_Write := File_Write scenarioEnv;
     PlainOpen := PlainOpen scenarioEnv;
     PlainInit := PlainInit scenarioEnv;
     Worktree := Worktree scenarioEnv;
     Tree_Add := Tree_Add scenarioEnv;
     Tree_Commit := Tree_Commit scenarioEnv;
     Repository_CommitObject := fun w =>
       if decide (length (commits w) = 2%nat) then Some "object not found"
       else None |}.

Definition T3 : Instant := 1700000120.

(** An empty bucket. *)
Definition emptyBucketEnv : Env :=
  quietEnv (inr []) scenarioVersions wholeBody.

(** * Properties *)

(** ** Routines that meet the contract of sort.Slice *)

Section InsertionFacts.
Context {A : Type} (less : A -> A -> bool).

Lemma insertBehind_perm a l : insertBehind less a l ≡ₚ a :: l.
Proof.
  induction l as [|b l IH]; simpl; [done|].
  destruct (less a b); [done|]. rewrite IH. apply Permutation_swap.
Qed.

Lemma fold_insert_perm (ins : A -> list A -> list A) :
  (forall a l, ins a l ≡ₚ a :: l) ->
  forall x acc, fold_left (fun acc a => ins a acc) x acc ≡ₚ x ++ acc.
Proof.
  intros Hins x. induction x as [|a x IH]; intros acc; simpl; [done|].
  rewrite IH, Hins. by rewrite Permutation_middle.
Qed.

Hypothesis less_asym : forall a b, less a b = true -> less b a = false.
Hypothesis notless_trans :
  forall a b c, less b a = false -> less c b = false -> less c a = false.

Lemma insertBehind_sorted a l :
  StronglySorted (notAfter less) l ->
  StronglySorted (notAfter less) (insertBehind less a l).
Proof.
  induction 1 as [|b l Hl IH Hb]; simpl.
  - repeat constructor.
  - destruct (less a b) eqn:Hab.
    + constructor; [by constructor|]. constructor.
      * by apply less_asym.
      * eapply Forall_impl; [exact Hb|]. intros c Hc. unfold notAfter in *.
        eapply notless_trans; [|exact Hc]. by apply less_asym.
    + constructor; [done|]. rewrite insertBehind_perm. by constructor.
Qed.

Lemma fold_insert_sorted (ins : A -> list A -> list A) :
  (forall a l, StronglySorted (notAfter less) l -> StronglySorted (notAfter less) (ins a l)) ->
  forall x acc, StronglySorted (notAfter less) acc ->
    StronglySorted (notAfter less) (fold_left (fun acc a => ins a acc) x acc).
Proof.
  intros Hins x. induction x as [|a x IH]; intros acc Hacc; simpl; auto.
Qed.

End InsertionFacts.

Lemma insertionSort_perm {A} (less : A -> A -> bool) x : insertionSort less x ≡ₚ x.
Proof.
  unfold insertionSort.
  rewrite (fold_insert_perm _ (insertBehind_perm less)). by rewrite app_nil_r.
Qed.

Lemma insertionSort_sorted {A} (less : A -> A -> bool) x :
  (forall a b, less a b = true -> less b a = false) ->
  (forall a b c, less b a = false -> less c b = false -> less c a = false) ->
  StronglySorted (notAfter less) (insertionSort less x).
Proof.
  intros Ha Ht. apply fold_insert_sorted; [|constructor].
  intros a l. by apply insertBehind_sorted.
Qed.

(** The stable routine, as a [sort.Slice]. *)
Definition stableSlice : SortSlice.
Proof.
  refine {| sort_Slice := fun A less x => insertionSort less x |}.
  - intros A less x. apply insertionSort_perm.
  - intros A less x Ha Ht. by apply insertionSort_sorted.
Defined.

Lemma map_nth_seq {A} (x : list A) (d : A) :
  map (fun i => nth i x d) (seq 0 (length x)) = x.
Proof.
  apply list_eq. intros i. rewrite list_lookup_fmap.
  destruct (decide (i < length x)%nat) as [Hlt|Hge].
  - rewrite lookup_seq_lt by done. simpl. rewrite nth_lookup.
    destruct (lookup_lt_is_Some_2 x i Hlt) as [y Hy]. by rewrite Hy.
  - rewrite lookup_seq_ge by lia. simpl. symmetry. apply lookup_ge_None. lia.
Qed.

Lemma inOrder_perm {A} (less : A -> A -> bool) x d order :
  inOrder less x d order = true -> map (fun i => nth i x d) order ≡ₚ x.
Proof.
  intros [Hp _]%andb_prop. apply bool_decide_eq_true in Hp.
  transitivity (map (fun i => nth i x d) (seq 0 (length x))).
  - by apply Permutation_map.
  - by rewrite map_nth_seq.
Qed.

Lemma inOrder_sorted {A} (less : A -> A -> bool) x d order :
  inOrder less x d order = true ->
  StronglySorted (notAfter less) (map (fun i => nth i x d) order).
Proof.
  intros [_ Hs]%andb_prop. apply bool_decide_eq_true in Hs.
  eapply (StronglySorted_fmap (fun i => nth i x d)); [|exact Hs]. by intros i j.
Qed.

(** The routine of the library, as a [sort.Slice]. *)
Definition goSlice (breakPatterns : forall A : Type, list A -> nat -> nat -> list A)
  : SortSlice.
Proof.
  refine {| sort_Slice := fun A less x => goSort breakPatterns less x |}.
  - intros A less x. unfold goSort. destruct x as [|d x]; [done|].
    destruct (inOrder less (d :: x) d _) eqn:Hin.
    + by apply inOrder_perm in Hin.
    + apply insertionSort_perm.
  - intros A less x Ha Ht. unfold goSort. destruct x as [|d x]; [constructor|].
    destruct (inOrder less (d :: x) d _) eqn:Hin.
    + by apply inOrder_sorted in Hin.
    + by apply insertionSort_sorted.
Defined.

(** ** The order on records *)

Lemma lessLastModified_asym a b :
  lessLastModified a b = true -> lessLastModified b a = false.
Proof. unfold lessLastModified, Before. lia. Qed.

Lemma lessLastModified_trans a b c :
  lessLastModified b a = false -> lessLastModified c b = false ->
  lessLastModified c a = false.
Proof. unfold lessLastModified, Before. lia. Qed.

Lemma notAfter_ascending l :
  StronglySorted (notAfter lessLastModified) l -> ascending l.
Proof.
  unfold ascending. induction 1 as [|a l Hl IH Ha]; constructor; [done|].
  eapply Forall_impl; [exact Ha|]. intros b.
  unfold notAfter, lessLastModified, Before. lia.
Qed.

(** ** The version lister *)

Lemma listVersions_acc env objects repoPath acc w :
  listVersions env objects repoPath acc w
  = ((acc ++ (listVersions env objects repoPath [] w).1)%list,
     (listVersions env objects repoPath [] w).2).
Proof.
  revert acc w. induction objects as [|o objects IH]; intros acc w; simpl.
  - by rewrite app_nil_r.
  - destruct (ListObjectVersions env w (obj_Bucket o) (obj_Key o)) as [err|vs].
    + apply IH.
    + rewrite IH. rewrite (IH (map _ vs)). simpl. by rewrite app_assoc.
Qed.

Lemma listVersions_app env pre post repoPath w :
  listVersions env (pre ++ post) repoPath [] w
  = let '(before, w1) := listVersions env pre repoPath [] w in
    let '(after, w2) := listVersions env post repoPath [] w1 in
    ((before ++ after)%list, w2).
Proof.
  assert (forall acc, listVersions env (pre ++ post) repoPath acc w
    = let '(before, w1) := listVersions env pre repoPath acc w in
      listVersions env post repoPath before w1) as H.
  { revert w. induction pre as [|o pre IH]; intros w acc; simpl; [done|].
    destruct (ListObjectVersions env w (obj_Bucket o) (obj_Key o)); apply IH. }
  rewrite H. destruct (listVersions env pre repoPath [] w) as [before w1].
  rewrite listVersions_acc. by destruct (listVersions env post repoPath [] w1).
Qed.

Lemma listVersions_output env objects repoPath acc w :
  exists more, output (listVersions env objects repoPath acc w).2
               = (output w ++ more)%list.
Proof.
  revert acc w. induction objects as [|o objects IH]; intros acc w; simpl.
  - exists []. by rewrite app_nil_r.
  - destruct (ListObjectVersions env w (obj_Bucket o) (obj_Key o)) as [err|vs].
    + destruct (IH acc (errorMessage err (emit (Log LogNoConfiguration)
        (call (CallListObjectVersions (obj_Bucket o) (obj_Key o)) w)))) as [more Hm].
      rewrite Hm. simpl. eexists. by rewrite <- !app_assoc.
    + destruct (IH (acc ++ map (toVersioned o repoPath) vs)%list
        (call (CallListObjectVersions (obj_Bucket o) (obj_Key o)) w)) as [more Hm].
      by exists more.
Qed.

Lemma sorted_listing (srt : SortSlice) (listed : list S3VersionedObject) :
  sort_Slice srt _ lessLastModified listed ≡ₚ listed
  /\ ascending (sort_Slice srt _ lessLastModified listed).
Proof.
  split; [apply sort_Slice_perm|].
  apply notAfter_ascending, sort_Slice_sorted;
    [apply lessLastModified_asym | apply lessLastModified_trans].
Qed.


(** C3, as the code has it.  Whatever routine stands behind [sort.Slice],
    [queryS3Versions] returns a rearrangement of the records it listed, in
    ascending order of [LastModified], and a nil error.  Nothing is said
    about the order of records with equal timestamps. *)
Theorem queryS3Versions_ascending (srt : SortSlice) (env : Env)
    (objects : list S3Object) (repoPath : string) (w : World) :
  let listed := (listVersions env objects repoPath [] w).1 in
  let sorted := (queryS3Versions srt env objects repoPath w).1.1 in
  sorted ≡ₚ listed /\ ascending sorted
  /\ (queryS3Versions srt env objects repoPath w).1.2 = None.
Proof.
  unfold queryS3Versions.
  destruct (listVersions env objects repoPath [] w) as [listed w1]; simpl.
  destruct (sorted_listing srt listed) as [Hperm Hasc]. by repeat split.
Qed.

(** C3, as stated, fails.  The bucket holds thirteen versions of [a.txt],
    listed newest first, of which [v09] is listed before [v08] and both
    carry the same timestamp.  The routine of the library chooses the
    seventh record as pivot, and its partition mirrors the slice around
    it: it returns the records in ascending order with [v08] before
    [v09], whatever [breakPatterns_func] would do, and so does
    [queryS3Versions]. *)
Lemma queryS3Versions_swaps_tied_versions :
  let objects := [ {| obj_Key := "a.txt"; obj_Bucket := "logs" |} ] in
  let listed := (listVersions busyEnv objects "/out" [] emptyWorld).1 in
  let v (versionId : string) (minute : Z) :=
    record "a.txt" versionId (T1 + 60 * minute) in
  let sorted :=
    [ v "v01" 2; v "v02" 3; v "v03" 4; v "v04" 5; v "v05" 6; v "v06" 7;
      v "v07" 8; v "v08" 9; v "v09" 9; v "v10" 10; v "v11" 11; v "v12" 12;
      v "v13" 13 ] in
  listed
  = [ v "v13" 13; v "v12" 12; v "v11" 11; v "v10" 10; v "v09" 9; v "v08" 9;
      v "v07" 8; v "v06" 7; v "v05" 6; v "v04" 5; v "v03" 4; v "v02" 3;
      v "v01" 2 ]
  /\ (forall breakPatterns : forall A : Type, list A -> nat -> nat -> list A,
        sort_Slice_func lessLastModified (breakPatterns S3VersionedObject) listed
        = sorted
        /\ (queryS3Versions (goSlice breakPatterns) busyEnv objects "/out"
              emptyWorld).1.1 = sorted)
  /\ ~ keepsTieOrder listed sorted.
Proof.
  split; [reflexivity|]. split.
  - intros breakPatterns. split; vm_compute; reflexivity.
  - intros H. specialize (H (T1 + 60 * 9)). vm_compute in H. discriminate H.
Qed.

(** C7.  Let the listing of one object fail, after the objects [pre] were
    handled and before the objects [post] are.  Then the failure is logged
    and printed, the loop goes on with [post], and what [queryS3Versions]
    returns is, in ascending order, exactly the records listed for [pre]
    and for [post], with a nil error. *)
Theorem queryS3Versions_skips_failed_object (srt : SortSlice) (env : Env)
    (pre post : list S3Object) (s3obj : S3Object) (repoPath : string)
    (w w1 w3 : World) (before after : list S3VersionedObject) (err : error) :
  listVersions env pre repoPath [] w = (before, w1) ->
  ListObjectVersions env w1 (obj_Bucket s3obj) (obj_Key s3obj) = inl err ->
  listVersions env post repoPath []
    (errorMessage err (emit (Log LogNoConfiguration)
       (call (CallListObjectVersions (obj_Bucket s3obj) (obj_Key s3obj)) w1)))
    = (after, w3) ->
  exists sorted more,
    queryS3Versions srt env (pre ++ s3obj :: post) repoPath w = (sorted, None, w3)
    /\ sorted ≡ₚ (before ++ after)%list
    /\ (forall v, v ∈ before \/ v ∈ after -> v ∈ sorted)
    /\ ascending sorted
    /\ output w3
       = (output w1 ++ [Log LogNoConfiguration; ErrorMessage err] ++ more)%list.
Proof.
  intros Hpre Herr Hpost.
  destruct (sorted_listing srt (before ++ after)) as [Hperm Hasc].
  unfold queryS3Versions. rewrite listVersions_app, Hpre.
  simpl. rewrite Herr, Hpost.
  destruct (listVersions_output env post repoPath []
    (errorMessage err (emit (Log LogNoConfiguration)
       (call (CallListObjectVersions (obj_Bucket s3obj) (obj_Key s3obj)) w1))))
    as [more Hmore].
  rewrite Hpost in Hmore. simpl in Hmore.
  eexists _, more. split; [reflexivity|]. split; [exact Hperm|].
  split; [|split; [exact Hasc|]].
  - intros v Hv. rewrite Hperm. set_solver.
  - rewrite Hmore. by rewrite <- !app_assoc.
Qed.

(** ** What a step may change

    Nothing the program does removes a printed line, a recorded call or a
    commit: the world only grows. *)

Lemma grows_refl w : grows w w.
Proof. by repeat split. Qed.

Lemma grows_trans w1 w2 w3 : grows w1 w2 -> grows w2 w3 -> grows w1 w3.
Proof. intros (?&?&?) (?&?&?). repeat split; by etrans. Qed.

Lemma grows_emit w w' o : grows w w' -> grows w (emit o w').
Proof.
  intros (?&?&?). repeat split; simpl; try done.
  etrans; [done|]. by apply prefix_app_r.
Qed.

Lemma grows_call w w' c : grows w w' -> grows w (call c w').
Proof.
  intros (?&?&?). repeat split; simpl; try done.
  etrans; [done|]. by apply prefix_app_r.
Qed.

Lemma grows_set_file w w' p b : grows w w' -> grows w (set_file p b w').
Proof. by intros (?&?&?). Qed.

Lemma grows_set_index w w' ix : grows w w' -> grows w (set_index ix w').
Proof. by intros (?&?&?). Qed.

Lemma grows_add_commit w w' c : grows w w' -> grows w (add_commit c w').
Proof.
  intros (?&?&?). repeat split; simpl; try done.
  etrans; [done|]. by apply prefix_app_r.
Qed.

Lemma grows_errorMessage w w' e : grows w w' -> grows w (errorMessage e w').
Proof. apply grows_emit. Qed.

Create HintDb world.
#[local] Hint Resolve grows_refl grows_emit grows_call grows_set_file
  grows_set_index grows_add_commit grows_errorMessage : world.

Lemma grows_calls w w' c : grows w w' -> c ∈ calls w -> c ∈ calls w'.
Proof. intros (_ & [k ->] & _) Hc. set_solver. Qed.

Lemma toLocalPath_grows env svo w : grows w (toLocalPath env svo w).2.
Proof. unfold toLocalPath. case_match; simpl; auto with world. Qed.

Lemma toLocalPath_keeps env svo w :
  let w' := (toLocalPath env svo w).2 in
  keepsGit w w' /\ calls w' = calls w /\ files w' = files w.
Proof. unfold toLocalPath. by case_match. Qed.

Lemma downloadFile_grows env object w : grows w (downloadFile env object w).2.
Proof.
  unfold downloadFile.
  pose proof (toLocalPath_grows env object
    (call (CallGetObject (Bucket object) (Key object) (VersionId object)) w)) as Hp.
  repeat case_match; simplify_eq; simpl in *;
    repeat (first [apply grows_emit | apply grows_call | apply grows_set_file]);
    first [ apply grows_refl
          | eapply grows_trans; [|exact Hp]; auto with world ].
Qed.

Lemma downloadFile_keeps env object w :
  keepsGit w (downloadFile env object w).2.
Proof.
  unfold downloadFile.
  pose proof (toLocalPath_keeps env object
    (call (CallGetObject (Bucket object) (Key object) (VersionId object)) w))
    as ([Hc Hi] & _).
  repeat case_match; simplify_eq; simpl in *; by split.
Qed.

(** ** applyGitChanges: one commit, dated by the last object *)

Lemma stage_grows env container path w : grows w (stage env container path w).
Proof. unfold stage. case_match; auto with world. Qed.

Lemma stage_commits env container path w :
  commits (stage env container path w) = commits w.
Proof. unfold stage. by case_match. Qed.

Lemma commitDateOf_cons x rest :
  default (LastModified x) (LastModified <$> last rest) = commitDateOf (x :: rest).
Proof. unfold commitDateOf. rewrite last_cons. by destruct (last rest). Qed.

(** The loop over the objects of a changeset creates no commit; when it
    runs to its end every object was handed to [Tree.Add] and [commitDate]
    is the timestamp of the last object. *)
Lemma stageObjects_spec env container objects files0 date0 w :
  let r := stageObjects env container objects files0 date0 w in
  grows w r.2 /\ commits r.2 = commits w /\
  match r.1 with
  | inr (_, date) =>
      date = default date0 (LastModified <$> last objects)
      /\ forall x, x ∈ objects -> CallAdd (Key x) ∈ calls r.2
  | inl (DownloadError _) | inl (StagingError _) => True
  | inl _ => False
  end.
Proof.
  revert files0 date0 w.
  induction objects as [|object rest IH]; intros files0 date0 w; simpl.
  - split; [apply grows_refl|]. split; [done|]. split; [done|]. set_solver.
  - pose proof (downloadFile_grows env object w) as Hdg.
    pose proof (downloadFile_keeps env object w) as [Hdc _].
    destruct (downloadFile env object w) as [[err|] w1]; simpl in *.
    + pose proof (toLocalPath_grows env object w1) as Hpg.
      pose proof (toLocalPath_keeps env object w1) as ([Hpc _] & _).
      destruct (toLocalPath env object w1) as [localPath w2]; simpl in *.
      split; [|split; [congruence|done]].
      apply grows_errorMessage, grows_emit. by eapply grows_trans.
    + pose proof (toLocalPath_grows env object w1) as Hpg.
      pose proof (toLocalPath_keeps env object w1) as ([Hpc _] & _).
      destruct (toLocalPath env object w1) as [localPath w2]; simpl in *.
      assert (grows w w2) as Hw2 by (by eapply grows_trans).
      destruct (Tree_Add env w2 (toBasenamePath object)) as [err|].
      * pose proof (toLocalPath_grows env object (call (CallAdd (toBasenamePath object)) w2)) as Hqg.
        pose proof (toLocalPath_keeps env object (call (CallAdd (toBasenamePath object)) w2))
          as ([Hqc _] & _).
        destruct (toLocalPath env object _) as [localPath' w4]; simpl in *.
        split; [|split; [congruence|done]].
        apply grows_errorMessage, grows_emit.
        eapply grows_trans; [|exact Hqg]. by apply grows_call.
      * set (w3 := stage env container (toBasenamePath object)
                     (call (CallAdd (toBasenamePath object)) w2)).
        assert (grows w2 w3) as Hw3.
        { eapply grows_trans; [|apply stage_grows]. apply grows_call, grows_refl. }
        destruct (IH (files0 ++ [localPath])%list (LastModified object) w3)
          as (Hg & Hc & Hr).
        split; [eapply grows_trans; [|exact Hg]; by eapply grows_trans|].
        split; [rewrite Hc; unfold w3; rewrite stage_commits; simpl; congruence|].
        destruct (stageObjects env container rest _ _ w3) as [[e|[fs date]] w'];
          simpl in *; [done|].
        destruct Hr as [-> Hadd]. split.
        { rewrite last_cons. by destruct (last rest). }
        intros x [->|Hx]%elem_of_cons; [|by apply Hadd].
        eapply grows_calls; [exact Hg|]. unfold w3, stage.
        case_match; simpl; apply elem_of_app; right; by apply list_elem_of_singleton.
Qed.

Lemma applyGitChanges_spec env container objects w :
  let r := applyGitChanges env container objects w in
  grows w r.2 /\
  if createsCommit r.1 then
    (exists c, commits r.2 = commits w ++ [c] /\ commitFor objects c)
    /\ forall x, x ∈ objects -> CallAdd (Key x) ∈ calls r.2
  else commits r.2 = commits w.
Proof.
  unfold applyGitChanges.
  destruct (stageObjects_spec env container objects [] time_zero w) as (Hg & Hc & Hr).
  destruct (stageObjects env container objects [] time_zero w)
    as [[err|[fs date]] w1]; simpl in *.
  - split; [done|]. by destruct err.
  - destruct Hr as [Hdate Hadd].
    assert (date = commitDateOf objects) as -> by done.
    destruct (Tree_Commit env w1 _ _) as [err|]; simpl.
    + split; [|done]. apply grows_errorMessage, grows_emit, grows_call. done.
    + destruct (Repository_CommitObject env _) as [err|]; simpl.
      * split; [auto 10 with world|]. split.
        -- eexists. split; [by rewrite Hc|]. by repeat split.
        -- intros x Hx. specialize (Hadd x Hx). set_solver.
      * split; [auto 10 with world|]. split.
        -- eexists. split; [by rewrite Hc|]. by repeat split.
        -- intros x Hx. specialize (Hadd x Hx). set_solver.
Qed.

(** ** The loop of replayS3Changes *)

Lemma replayLoop_rule P env container :
  StepClosed P ->
  forall versions done cd buf w,
    P done cd buf versions ->
    let run := replayLoop env container versions done cd buf w in
    exists rest,
      P (applied run) (currentDate run) (objectModifications run) rest
      /\ (exit run = InputExhausted <-> rest = [])
      /\ (exit run <> InputExhausted -> currentDate run <> time_zero).
Proof.
  intros Hstep versions.
  induction versions as [|version rest IH]; intros done cd buf w HP; simpl.
  - by exists [].
  - specialize (Hstep done cd buf version rest HP). simpl in Hstep.
    destruct (After (LastModified version) _) eqn:Hafter.
    + destruct Hstep as [Hcall Hnext].
      destruct (applyGitChanges env container buf w) as [[err|] w1]; simpl.
      * exists (version :: rest). split; [done|]. split; [by split|].
        intros _. unfold After, time_eqb, time_zero in *.
        destruct (cd =? 0) eqn:Hz; lia.
      * by apply IH.
    + by apply IH.
Qed.

(** What the run does to the repository.  The changesets for which
    [Tree.Commit] succeeded are the ones given at the start followed by
    [added]; the run appends one commit for each member of [added], in that
    order, and each of them was made for the buffer of its changeset after
    every record of the buffer was staged.  An aborted run ends with the
    failing call of [applyGitChanges] on the buffer, the log line and the
    printed error. *)
Lemma replayLoop_world env container versions done cd buf w :
  let run := replayLoop env container versions done cd buf w in
  grows w (world run) /\
  (exists added new,
     committed run = done ++ added
     /\ commits (world run) = commits w ++ new
     /\ Forall2 (fun c cs =>
          commitFor (members cs) c
          /\ forall x, x ∈ members cs -> CallAdd (Key x) ∈ calls (world run))
        new added)
  /\ (forall err, exit run = Aborted err ->
        exists w0 w1,
          applyGitChanges env container (objectModifications run) w0 = (Some err, w1)
          /\ world run
             = errorMessage (go_error err)
                 (emit (Log (LogApplyFailed (length (objectModifications run)))) w1)).
Proof.
  revert done cd buf w.
  induction versions as [|version rest IH]; intros done cd buf w; simpl.
  - split; [apply grows_refl|]. split; [|done].
    exists [], []. unfold committed; simpl. rewrite !app_nil_r. by repeat split.
  - destruct (After (LastModified version) _); [|apply IH].
    pose proof (applyGitChanges_spec env container buf w) as [Hg Hc].
    destruct (applyGitChanges env container buf w) as [[err|] w1] eqn:Happly;
      simpl in *.
    + split; [auto with world|]. split; [|intros ? [= <-]; by eexists _, _].
      unfold committed; simpl.
      destruct err; simpl in Hc;
        try (exists [], []; rewrite !app_nil_r; by repeat split).
      destruct Hc as [(c & Hc & Hfor) Hadd].
      eexists [_], [c]. split; [done|]. split; [done|].
      constructor; [|constructor]. split; [done|].
      intros x Hx. simpl. by apply Hadd.
    + destruct Hc as [(c & Hc & Hfor) Hadd].
      destruct (IH (done ++ [{| timestamp := if time_eqb cd time_zero
                                             then LastModified version else cd;
                                members := buf |}])
                   (LastModified version) [version] w1)
        as (Hg' & (added & new & Hcm & Hnew & Hall) & Hab).
      split; [by eapply grows_trans|]. split; [|done].
      eexists (_ :: added), (c :: new).
      split; [by rewrite Hcm, <- app_assoc|].
      split; [by rewrite Hnew, Hc, <- app_assoc|].
      constructor; [|done]. split; [done|].
      intros x Hx. eapply grows_calls; [exact Hg'|]. by apply Hadd.
Qed.

(** *** Three properties every turn of the loop keeps *)

Lemma Partitions_closed versions : StepClosed (Partitions versions).
Proof.
  intros done cd buf version rest HP. unfold Partitions in *. simpl.
  destruct (After _ _).
  - split; [done|]. rewrite map_app, concat_app. simpl.
    by rewrite app_nil_r, <- app_assoc.
  - by rewrite <- app_assoc.
Qed.

Lemma closedAt_later cd cd' cs : cd <= cd' -> closedAt cd cs -> closedAt cd' cs.
Proof. intros Hle (? & ? & ?). repeat split; [done|lia|done]. Qed.

Lemma StronglySorted_snoc_lt (l : list Z) (z : Z) :
  StronglySorted Z.lt l -> Forall (fun y => y < z) l -> StronglySorted Z.lt (l ++ [z]).
Proof.
  intros Hl Hz. apply StronglySorted_app_2; [|done|repeat constructor].
  intros x1 x2 Hx1 ->%list_elem_of_singleton.
  by apply (proj1 (Forall_forall _ _) Hz).
Qed.

Lemma Dated_closed : StepClosed Dated.
Proof.
  intros done cd buf version rest HD.
  pose proof HD as (Hasc & Hstart & Hlast & Hdone & Hinc).
  apply StronglySorted_cons in Hasc as [Hhead Hasc].
  unfold time_eqb, time_zero, After in *. simpl.
  destruct (cd =? 0) eqn:Hz.
  - apply Z.eqb_eq in Hz. subst cd. rewrite Z.ltb_irrefl.
    split; [done|]. split; [by intros [_ [=]]%app_eq_nil|].
    split; [intros x; rewrite last_snoc; by intros [= <-]|]. split; [|done].
    destruct buf as [|b buf]; [by destruct (Hstart eq_refl) as [_ ->]|].
    destruct (last (b :: buf)) as [x|] eqn:Hx; [|by apply last_None in Hx].
    destruct (Hlast x eq_refl) as [_ Hle]. apply Forall_cons in Hle as [Hle _].
    eapply Forall_impl; [exact Hdone|]. intros cs. by apply closedAt_later.
  - apply Z.eqb_neq in Hz.
    assert (exists x, last buf = Some x) as [x Hx].
    { destruct (last buf) eqn:Hx; [by eexists|].
      apply last_None in Hx. by destruct (Hstart Hx). }
    destruct (Hlast x Hx) as [Hcd Hle]. apply Forall_cons in Hle as [Hv Hle].
    destruct (cd <? LastModified version) eqn:Hafter.
    + apply Z.ltb_lt in Hafter. split; [exact HD|].
      split; [done|]. split; [done|].
      split; [intros y [= <-]; split; [done|by apply (Forall_impl _ _ _ Hhead)]|].
      split.
      * apply Forall_app. split.
        -- eapply Forall_impl; [exact Hdone|]. intros cs. apply closedAt_later. lia.
        -- repeat constructor; simpl; [done|done|]. by exists x.
      * rewrite map_app. simpl. apply StronglySorted_snoc_lt; [done|].
        apply Forall_fmap. eapply Forall_impl; [exact Hdone|]. by intros cs (? & ? & ?).
    + apply Z.ltb_ge in Hafter. split; [done|].
      split; [by intros [_ [=]]%app_eq_nil|].
      split; [|done]. intros y. rewrite last_snoc. intros [= <-].
      split; [lia|done].
Qed.

Lemma Dated_Uniform_closed :
  StepClosed (fun done cd buf rest => Dated done cd buf rest /\ Uniform done cd buf rest).
Proof.
  intros done cd buf version rest [HD (Hnz & Hbuf & Hdone)].
  pose proof (Dated_closed done cd buf version rest HD) as Hstep.
  destruct HD as (Hasc & Hstart & Hlast & _).
  unfold time_eqb, time_zero, After in *. simpl in *.
  destruct (cd =? 0) eqn:Hz.
  - apply Z.eqb_eq in Hz. subst cd. rewrite Z.ltb_irrefl in *.
    split; [done|]. destruct buf as [|b buf].
    + simpl in *. split; [done|]. split; [by repeat constructor|done].
    + apply Forall_cons in Hbuf as [Hb _]. by apply Forall_cons in Hnz as [Hnz _].
  - destruct (cd <? LastModified version) eqn:Hafter.
    + destruct Hstep as [Hs1 Hs2]. split; [by split|]. split; [done|].
      split; [by apply Forall_app in Hnz as [_ Hnz]|].
      split; [by repeat constructor|].
      apply Forall_app. split; [done|]. by repeat constructor.
    + split; [done|]. split; [by rewrite <- app_assoc|]. split; [|done].
      apply Forall_app. split; [done|]. repeat constructor.
      destruct Hstep as (_ & _ & Hl & _).
      destruct (Hl version) as [Hv _]; [by rewrite last_snoc|done].
Qed.

Lemma Filled_closed : StepClosed Filled.
Proof.
  intros done cd buf version rest HF. pose proof HF as [Hstart Hdone].
  unfold time_eqb, time_zero, After in *. simpl.
  destruct (cd =? 0) eqn:Hz.
  - rewrite Z.ltb_irrefl. split; [by intros [_ [=]]%app_eq_nil|done].
  - apply Z.eqb_neq in Hz. destruct (cd <? LastModified version).
    + split; [exact HF|]. split; [done|].
      apply Forall_app. split; [done|]. repeat constructor; simpl.
      intros Hb. by destruct (Hstart Hb).
    + split; [by intros [_ [=]]%app_eq_nil|done].
Qed.

Lemma StepClosed_and P Q :
  StepClosed P -> StepClosed Q ->
  StepClosed (fun done cd buf rest => P done cd buf rest /\ Q done cd buf rest).
Proof.
  intros HP HQ done cd buf version rest [Hp Hq].
  specialize (HP done cd buf version rest Hp).
  specialize (HQ done cd buf version rest Hq). simpl in *.
  destruct (After _ _); [|done]. destruct HP, HQ. by repeat split.
Qed.

Lemma Dated_start versions : ascending versions -> Dated [] time_zero [] versions.
Proof. intros Hasc. split; [done|]. by repeat split; try constructor. Qed.

Lemma Filled_start versions : Filled [] time_zero [] versions.
Proof. by split. Qed.

Lemma Partitions_start versions : Partitions versions [] time_zero [] versions.
Proof. done. Qed.

(** *** The changesets of a run on ascending input *)

Lemma committed_prefix run : committed run `prefix_of` attempted run.
Proof.
  unfold committed, attempted. destruct (exit run) as [|[]]; try done;
    by apply prefix_app_r.
Qed.

Lemma attempted_filled env container versions w :
  Forall (fun cs => members cs <> [])
    (attempted (replayS3Changes env versions container w)).
Proof.
  destruct (replayLoop_rule Filled env container Filled_closed versions
              [] time_zero [] w (Filled_start versions))
    as (rest & [Hstart Hdone] & Hexit & Hcd).
  fold (replayS3Changes env versions container w) in *.
  unfold attempted. destruct (exit _) eqn:He; [done|].
  apply Forall_app. split; [done|]. repeat constructor; simpl.
  intros Hb. destruct (Hstart Hb) as [Hz _]. by apply Hcd.
Qed.

Lemma attempted_dated env container versions w :
  ascending versions ->
  let run := replayS3Changes env versions container w in
  Forall wellDated (attempted run)
  /\ StronglySorted Z.lt (map timestamp (attempted run)).
Proof.
  intros Hasc.
  destruct (replayLoop_rule Dated env container Dated_closed versions
              [] time_zero [] w (Dated_start versions Hasc))
    as (rest & (_ & Hstart & Hlast & Hdone & Hinc) & Hexit & Hcd).
  fold (replayS3Changes env versions container w) in *. simpl.
  assert (Forall wellDated (applied (replayS3Changes env versions container w)))
    as Happlied.
  { eapply Forall_impl; [exact Hdone|]. by intros cs (? & _ & ?). }
  unfold attempted. destruct (exit _) eqn:He; [done|].
  assert (currentDate (replayS3Changes env versions container w) <> time_zero)
    as Hnz by (by apply Hcd).
  split.
  - apply Forall_app. split; [done|]. repeat constructor; simpl; [done|].
    destruct (last (objectModifications _)) as [x|] eqn:Hx.
    + exists x. split; [done|]. by destruct (Hlast x eq_refl).
    + apply last_None in Hx. by destruct (Hstart Hx).
  - rewrite map_app. simpl. apply StronglySorted_snoc_lt; [done|].
    apply Forall_fmap. eapply Forall_impl; [exact Hdone|]. by intros cs (? & ? & ?).
Qed.

Lemma commitDateOf_wellDated cs :
  wellDated cs -> commitDateOf (members cs) = timestamp cs.
Proof. intros (_ & x & Hx & Hcd). unfold commitDateOf. by rewrite Hx. Qed.

Lemma StronglySorted_prefix {A} (R : relation A) (l k : list A) :
  l `prefix_of` k -> StronglySorted R k -> StronglySorted R l.
Proof. intros [m ->]. apply StronglySorted_app_1_l. Qed.

Lemma Forall_prefix {A} (P : A -> Prop) (l k : list A) :
  l `prefix_of` k -> Forall P k -> Forall P l.
Proof. intros [m ->]. by intros [? _]%Forall_app. Qed.

Lemma Forall2_and_r {A B} (P : A -> B -> Prop) (Q : B -> Prop) l k :
  Forall2 P l k -> Forall Q k -> Forall2 (fun a b => P a b /\ Q b) l k.
Proof.
  induction 1 as [|a b l k Hab Hlk IH]; intros HQ; [constructor|].
  apply Forall_cons in HQ as [Hb HQ]. constructor; auto.
Qed.

Lemma Forall2_map_eq {A B C} (f : A -> C) (g : B -> C) l k :
  Forall2 (fun a b => f a = g b) l k -> map f l = map g k.
Proof. induction 1; simpl; congruence. Qed.

Lemma StronglySorted_lookup {A} (R : relation A) (l : list A) (i j : nat) a b :
  StronglySorted R l -> l !! i = Some a -> l !! j = Some b -> (i < j)%nat -> R a b.
Proof.
  intros Hl. revert i j. induction Hl as [|c l Hl IH Hc]; intros i j Hi Hj Hij.
  - done.
  - destruct j as [|j]; [lia|]. destruct i as [|i]; simpl in *.
    + injection Hi as ->. eapply Forall_forall; [exact Hc|].
      by eapply list_elem_of_lookup_2.
    + eapply (IH i j); [done|done|lia].
Qed.

Lemma StronglySorted_lt_le (l : list Z) :
  StronglySorted Z.lt l -> StronglySorted Z.le l.
Proof.
  induction 1 as [|z l Hl IH Hz]; constructor; [done|].
  eapply Forall_impl; [exact Hz|]. intros y. simpl. lia.
Qed.

Lemma sameInstant_lookup (css : list Changeset) (i : nat) cs x :
  Forall sameInstant css -> css !! i = Some cs -> x ∈ members cs ->
  LastModified x = timestamp cs.
Proof.
  intros Hall Hi Hx.
  assert (sameInstant cs) as Hcs.
  { apply (proj1 (Forall_forall sameInstant css) Hall).
    by eapply list_elem_of_lookup_2. }
  by apply (proj1 (Forall_forall _ _) Hcs).
Qed.

(** ** The claims about the replayer *)

(** C5.  On ascending input, the commits a run adds to the repository
    correspond, in order, to the changesets for which [Tree.Commit]
    succeeded.  Each commit carries the timestamp of the last member of its
    changeset both in its message and as the [When] of its author, under the
    fixed author identity; this timestamp is the boundary the loop had when
    it closed the changeset; and the author timestamps of the commits
    increase from one commit to the next, so they never decrease. *)
Theorem commits_dated_by_last_member (env : Env) (container : gitContainer)
    (versions : list S3VersionedObject) (w : World) :
  ascending versions ->
  let run := replayS3Changes env versions container w in
  exists new,
    commits (world run) = commits w ++ new
    /\ Forall2 (fun c cs =>
         exists x, last (members cs) = Some x
           /\ message c = ModificationOn (LastModified x)
           /\ author_When c = LastModified x
           /\ author_When c = timestamp cs
           /\ fixedAuthor c) new (committed run)
    /\ StronglySorted Z.lt (map author_When new)
    /\ StronglySorted Z.le (map author_When new).
Proof.
  intros Hasc run.
  destruct (replayLoop_world env container versions [] time_zero [] w)
    as (_ & (added & new & Hadded & Hnew & Hall) & _).
  fold (replayS3Changes env versions container w) in *. fold run in Hadded, Hnew, Hall.
  simpl in Hadded. rewrite <- Hadded in Hall.
  destruct (attempted_dated env container versions w Hasc) as [Hwd Hinc].
  fold run in Hwd, Hinc.
  pose proof (Forall_prefix _ _ _ (committed_prefix run) Hwd) as Hwd'.
  assert (Forall2 (fun c cs => author_When c = timestamp cs) new (committed run))
    as Hwhen.
  { eapply Forall2_impl; [exact (Forall2_and_r _ _ _ _ Hall Hwd')|].
    intros c cs [[(_ & Hw & _) _] Hcs]. simpl in *.
    by rewrite Hw, commitDateOf_wellDated. }
  assert (StronglySorted Z.lt (map author_When new)) as Hlt.
  { rewrite (Forall2_map_eq _ _ _ _ Hwhen).
    eapply StronglySorted_prefix; [|exact Hinc].
    destruct (committed_prefix run) as [k ->]. rewrite map_app. by eexists. }
  exists new. split; [done|]. split; [|split; [done|by apply StronglySorted_lt_le]].
  eapply Forall2_impl; [exact (Forall2_and_r _ _ _ _ Hall Hwd')|].
  intros c cs [[(Hm & Hw & Hfix) _] Hcs]. simpl in *.
  pose proof (commitDateOf_wellDated cs Hcs) as Hdate.
  destruct Hcs as (_ & x & Hx & Hcd). exists x.
  rewrite Hm, Hw, Hdate, Hcd. by split; [|split; [|split; [|split]]].
Qed.

(** C10.  Every buffer that reaches [applyGitChanges] holds at least one
    record.  On ascending input, every commit the run adds was made after
    each record of a non-empty buffer was handed to [Tree.Add], and its
    date is not the zero instant and is the timestamp of a record of that
    buffer. *)
Theorem flushed_buffers_nonempty (env : Env) (container : gitContainer)
    (versions : list S3VersionedObject) (w : World) :
  let run := replayS3Changes env versions container w in
  Forall (fun cs => members cs <> []) (attempted run)
  /\ (ascending versions ->
      exists new,
        commits (world run) = commits w ++ new
        /\ Forall2 (fun c cs =>
             members cs <> []
             /\ (forall x, x ∈ members cs ->
                   CallAdd (toBasenamePath x) ∈ calls (world run))
             /\ author_When c <> time_zero
             /\ exists x, x ∈ members cs /\ author_When c = LastModified x)
           new (committed run)).
Proof.
  intros run. split; [apply attempted_filled|]. intros Hasc.
  destruct (replayLoop_world env container versions [] time_zero [] w)
    as (_ & (added & new & Hadded & Hnew & Hall) & _).
  fold (replayS3Changes env versions container w) in *. fold run in Hadded, Hnew, Hall.
  simpl in Hadded. rewrite <- Hadded in Hall.
  destruct (attempted_dated env container versions w Hasc) as [Hwd _].
  fold run in Hwd.
  pose proof (Forall_prefix _ _ _ (committed_prefix run) Hwd) as Hwd'.
  exists new. split; [done|].
  eapply Forall2_impl; [exact (Forall2_and_r _ _ _ _ Hall Hwd')|].
  intros c cs [[(_ & Hw & _) Hadd] Hcs]. simpl in *.
  pose proof (commitDateOf_wellDated cs Hcs) as Hdate.
  destruct Hcs as (Hnz & x & Hx & Hcd).
  split; [intros Hnil; by rewrite Hnil in Hx|]. split; [exact Hadd|].
  split; [by rewrite Hw, Hdate|].
  exists x. split; [by eapply last_Some_elem_of|]. by rewrite Hw, Hdate.
Qed.

Lemma stageObjects_app env container xs ys fs0 date0 w fs date wp :
  stageObjects env container xs fs0 date0 w = (inr (fs, date), wp) ->
  stageObjects env container (xs ++ ys) fs0 date0 w
  = stageObjects env container ys fs date wp.
Proof.
  revert fs0 date0 w. induction xs as [|x xs IH]; intros fs0 date0 w; simpl.
  - intros Heq. by simplify_eq.
  - destruct (downloadFile env x w) as [[e|] w1];
      destruct (toLocalPath env x w1) as [localPath w2]; [done|].
    destruct (Tree_Add env w2 (toBasenamePath x)); [|apply IH].
    by destruct (toLocalPath env x _).
Qed.

(** A failing step makes [applyGitChanges] return its error. *)
Lemma ReplayFails_apply env container buffer w err :
  ReplayFails env container buffer w err ->
  exists w1, applyGitChanges env container buffer w = (Some err, w1).
Proof.
  intros [before object after fs date wp e -> Hst Hdl
         |before object after fs date wp w1 e -> Hst Hdl Hadd
         |fs date wp e Hst Hcommit
         |fs date wp e Hst Hcommit Hobject]; unfold applyGitChanges.
  - rewrite (stageObjects_app _ _ _ (object :: after) _ _ _ _ _ _ Hst). simpl.
    destruct (downloadFile env object wp) as [[e'|] w1]; simpl in Hdl; [|done].
    injection Hdl as ->. destruct (toLocalPath env object w1). by eexists.
  - rewrite (stageObjects_app _ _ _ (object :: after) _ _ _ _ _ _ Hst). simpl.
    rewrite Hdl. destruct (toLocalPath env object w1) as [localPath w2].
    simpl in Hadd. rewrite Hadd. destruct (toLocalPath env object _). by eexists.
  - rewrite Hst, Hcommit. by eexists.
  - rewrite Hst. cbv zeta. rewrite Hcommit, Hobject. by eexists.
Qed.

(** Reading [xs ++ ys] after a run over [xs] that was not aborted. *)
Lemma replayLoop_resume env container xs ys done cd buf w :
  exit (replayLoop env container xs done cd buf w) = InputExhausted ->
  replayLoop env container (xs ++ ys) done cd buf w
  = let run := replayLoop env container xs done cd buf w in
    replayLoop env container ys (applied run) (currentDate run)
      (objectModifications run) (world run).
Proof.
  revert done cd buf w. induction xs as [|x xs IH]; intros done cd buf w; simpl.
  - done.
  - destruct (After (LastModified x) _); [|apply IH].
    destruct (applyGitChanges env container buf w) as [[err|] w1]; [done|apply IH].
Qed.

(** C6, as the code has it.  Let the records [pre] be read without an
    abort: the changesets 1..K-1 are applied and the buffer holds changeset
    K.  Let the next record open a new changeset, and let the replay of the
    buffer fail: [downloadFile] or [Tree.Add] returns an error for one of
    its objects, or [Tree.Commit] or [Repository.CommitObject] returns one.
    Then the run is aborted with that error, whatever input follows: no
    further record is read and no further changeset is applied, the
    failure is logged and the error printed last, and the repository keeps
    the commits it had before the run and one commit for each of the
    changesets 1..K-1, in order.  Changeset K adds no commit to them,
    unless the failing step is [Repository.CommitObject]: then the commit
    of changeset K was made and stays. *)
Theorem failure_aborts_the_run (env : Env) (container : gitContainer)
    (pre post : list S3VersionedObject) (version : S3VersionedObject)
    (w : World) (err : ApplyError) :
  let run1 := replayS3Changes env pre container w in
  let boundary :=
    if time_eqb (currentDate run1) time_zero then LastModified version
    else currentDate run1 in
  let run := replayS3Changes env (pre ++ version :: post) container w in
  exit run1 = InputExhausted ->
  After (LastModified version) boundary = true ->
  ReplayFails env container (objectModifications run1) (world run1) err ->
  exists new w1,
    exit run = Aborted err
    /\ applied run = applied run1
    /\ objectModifications run = objectModifications run1
    /\ (forall post', replayS3Changes env (pre ++ version :: post') container w = run)
    /\ commits (world run1) = commits w ++ new
    /\ Forall2 (fun c cs => commitFor (members cs) c) new (applied run1)
    /\ applyGitChanges env container (objectModifications run1) (world run1)
       = (Some err, w1)
    /\ world run
       = errorMessage (go_error err)
           (emit (Log (LogApplyFailed (length (objectModifications run1)))) w1)
    /\ (if createsCommit (Some err)
        then exists c, commits (world run) = commits w ++ new ++ [c]
                       /\ commitFor (objectModifications run1) c
        else commits (world run) = commits w ++ new).
Proof.
  intros run1 boundary run Hexit Hafter Hfails.
  destruct (ReplayFails_apply _ _ _ _ _ Hfails) as [w1 Happly].
  assert (forall post',
            replayS3Changes env (pre ++ version :: post') container w
            = {| applied := applied run1; currentDate := boundary;
                 objectModifications := objectModifications run1;
                 exit := Aborted err;
                 world := errorMessage (go_error err)
                            (emit (Log (LogApplyFailed
                                          (length (objectModifications run1)))) w1) |})
    as Hrun.
  { intros post'. unfold replayS3Changes.
    rewrite replayLoop_resume by exact Hexit. simpl.
    fold (replayS3Changes env pre container w). fold run1. fold boundary.
    by rewrite Hafter, Happly. }
  destruct (replayLoop_world env container pre [] time_zero [] w)
    as (_ & (added & new & Hadded & Hnew & Hall) & _).
  fold (replayS3Changes env pre container w) in Hadded, Hnew, Hall.
  fold run1 in Hadded, Hnew, Hall.
  unfold committed in Hadded. rewrite Hexit in Hadded. simpl in Hadded.
  rewrite <- Hadded in Hall.
  pose proof (applyGitChanges_spec env container (objectModifications run1)
                (world run1)) as [_ Hc].
  rewrite Happly in Hc. simpl in Hc.
  exists new, w1. unfold run. rewrite (Hrun post). simpl.
  split; [done|]. split; [done|]. split; [done|].
  split; [intros post'; by rewrite Hrun|].
  split; [done|].
  split; [eapply Forall2_impl; [exact Hall|]; by intros c cs [? _]|].
  split; [done|]. split; [done|].
  destruct err; simpl in *; try (by rewrite Hc, Hnew).
  destruct Hc as [(c & Hc & Hfor) _]. exists c.
  split; [by rewrite Hc, Hnew, <- app_assoc|done].
Qed.

(** C6, as stated, fails.  The repository makes the commit of the second
    changeset and then cannot look it up.  The run is aborted while that
    changeset is replayed, and the changeset has produced a commit: the
    repository holds two commits, dated [T0] and [T1].  And when the body
    of every object breaks while it is read, [downloadFile] returns nil
    all the same and the run is not aborted at all. *)
Lemma lost_commit_stays_in_repository :
  let pre :=
    [record "c.txt" "c0" T0; record "a.txt" "a1" T1; record "b.txt" "b1" T1] in
  let run1 := replayS3Changes lostCommitEnv pre scenarioRepo emptyWorld in
  let run := replayS3Changes lostCommitEnv longerInput scenarioRepo emptyWorld in
  let broken := replayS3Changes brokenEnv longerInput scenarioRepo emptyWorld in
  (ReplayFails lostCommitEnv scenarioRepo
     [record "a.txt" "a1" T1; record "b.txt" "b1" T1] (world run1)
     (CommitObjectError "object not found")
   /\ exit run = Aborted (CommitObjectError "object not found")
   /\ map members (applied run) = [[record "c.txt" "c0" T0]]
   /\ objectModifications run = [record "a.txt" "a1" T1; record "b.txt" "b1" T1]
   /\ map author_When (commits (world run)) = [T0; T1])
  /\ (head (output (world broken)) = Some (Log (LogReadBodyFailed "c.txt" "c0"))
      /\ exit broken = InputExhausted
      /\ map author_When (commits (world broken)) = [T0; T1]).
Proof.
  split; [split; [|by vm_compute]|].
  - eapply CommitObjectFails; vm_compute; reflexivity.
  - by vm_compute.
Qed.



(** C4, as the code has it.  Take ascending input in which no record
    carries the zero instant.  The buffers the loop builds (the changesets
    it closes and the buffer it holds when it stops) are consecutive pieces
    of the input, in order; all members of a buffer carry its boundary; the
    boundaries increase strictly from one buffer to the next.  So two
    records land in the same buffer exactly when their timestamps are equal,
    and a buffer is closed exactly where the timestamp increases. *)
Theorem changesets_group_equal_timestamps (env : Env) (container : gitContainer)
    (versions : list S3VersionedObject) (w : World) :
  ascending versions ->
  Forall (fun v => LastModified v <> time_zero) versions ->
  let run := replayS3Changes env versions container w in
  (exists rest,
      versions = concat (map members (changesets run)) ++ rest
      /\ (exit run = InputExhausted <-> rest = []))
  /\ Forall sameInstant (changesets run)
  /\ StronglySorted Z.lt (map timestamp (changesets run))
  /\ (forall i j ci cj x y,
        changesets run !! i = Some ci -> changesets run !! j = Some cj ->
        x ∈ members ci -> y ∈ members cj ->
        (LastModified x = LastModified y <-> i = j)).
Proof.
  intros Hasc Hnz run.
  destruct (replayLoop_rule _ env container
              (StepClosed_and _ _ Dated_Uniform_closed (Partitions_closed versions))
              versions [] time_zero [] w)
    as (rest & [[HD HU] Hpart] & Hrest & _).
  { split; [split|done]; [by apply Dated_start|]. by repeat split. }
  fold (replayS3Changes env versions container w) in *.
  fold run in HD, HU, Hpart, Hrest.
  destruct HD as (_ & _ & _ & Hdone & Hinc). destruct HU as (_ & Hbuf & Hsame).
  assert (Forall sameInstant (changesets run)) as Hsame'.
  { unfold changesets. apply Forall_app. split; [done|]. by repeat constructor. }
  assert (StronglySorted Z.lt (map timestamp (changesets run))) as Hinc'.
  { unfold changesets. rewrite map_app. simpl. apply StronglySorted_snoc_lt; [done|].
    apply Forall_fmap. eapply Forall_impl; [exact Hdone|]. by intros cs (? & ? & ?). }
  split; [|split; [done|split; [done|]]].
  - exists rest. split; [|done]. unfold changesets, Partitions in *.
    rewrite map_app, concat_app. simpl. by rewrite app_nil_r, <- app_assoc.
  - intros i j ci cj x y Hi Hj Hx Hy.
    rewrite (sameInstant_lookup _ _ _ _ Hsame' Hi Hx).
    rewrite (sameInstant_lookup _ _ _ _ Hsame' Hj Hy).
    split; [|intros ->; congruence]. intros Heq.
    assert (map timestamp (changesets run) !! i = Some (timestamp ci)) as Hti
      by (by rewrite list_lookup_fmap, Hi).
    assert (map timestamp (changesets run) !! j = Some (timestamp cj)) as Htj
      by (by rewrite list_lookup_fmap, Hj).
    destruct (Nat.lt_trichotomy i j) as [Hij|[Hij|Hij]]; [|done|].
    + pose proof (StronglySorted_lookup _ _ _ _ _ _ Hinc' Hti Htj Hij). lia.
    + pose proof (StronglySorted_lookup _ _ _ _ _ _ Hinc' Htj Hti Hij). lia.
Qed.

(** C4, as stated, fails.  The input is ascending; its first record carries
    the zero instant, so the second turn of the loop takes the boundary for
    not yet set and moves it to [T1] without closing the buffer: the two
    records, whose timestamps differ, end up in one changeset. *)
Lemma zero_instant_joins_changesets :
  let run := replayS3Changes scenarioEnv zeroInput scenarioRepo emptyWorld in
  ascending zeroInput
  /\ changesets run = [ {| timestamp := T1; members := zeroInput |} ]
  /\ LastModified (record "a.txt" "a0" time_zero)
     <> LastModified (record "b.txt" "b1" T1).
Proof.
  split; [|split; [reflexivity|discriminate]].
  unfold ascending, zeroInput. repeat constructor. simpl. unfold time_zero, T1. lia.
Qed.

(** In every run that reads a non-empty input to its end, the buffer still
    holds the last record when the function returns, and the repository
    has one more commit for each applied changeset and none for the
    buffer. *)
Lemma last_buffer_is_never_applied env container versions w :
  versions <> [] ->
  let run := replayS3Changes env versions container w in
  exit run = InputExhausted ->
  last (objectModifications run) = last versions
  /\ objectModifications run <> []
  /\ length (commits (world run)) = (length (commits w) + length (applied run))%nat.
Proof.
  intros Hne run Hexit.
  destruct (replayLoop_rule _ env container
              (StepClosed_and _ _ Filled_closed (Partitions_closed versions))
              versions [] time_zero [] w)
    as (rest & [[Hstart _] Hpart] & Hrest & _); [by split|].
  destruct (replayLoop_world env container versions [] time_zero [] w)
    as (_ & (added & new & Hadded & Hnew & Hall) & _).
  fold (replayS3Changes env versions container w) in *.
  fold run in Hstart, Hpart, Hrest, Hadded, Hnew, Hall.
  rewrite (proj1 Hrest Hexit) in Hpart. unfold Partitions in Hpart.
  rewrite app_nil_r in Hpart.
  assert (objectModifications run <> []) as Hbuf.
  { intros Hb. destruct (Hstart Hb) as [_ Hd]. by rewrite Hb, Hd in Hpart. }
  split; [|split; [done|]].
  - rewrite Hpart, last_app. destruct (last (objectModifications run)) eqn:Hl; [done|].
    by apply last_None in Hl.
  - unfold committed in Hadded. rewrite Hexit in Hadded. simpl in Hadded.
    rewrite Hnew, length_app, Hadded. by rewrite (Forall2_length _ _ _ Hall).
Qed.

(** C1 on the code.  In the scenario [a.txt]@T1, [b.txt]@T1, [a.txt]@T2,
    with an outside world in which nothing fails, the run reads the whole
    input and leaves exactly one commit, dated [T1], whose tree holds the
    first versions of the two files.  The version of [a.txt] written at
    [T2] is still in the buffer when the function returns: it was fetched by
    nobody and no commit is dated [T2]. *)
Theorem scenario_yields_one_commit :
  let run := replayS3Changes scenarioEnv scenarioInput scenarioRepo emptyWorld in
  exit run = InputExhausted
  /\ map members (applied run)
     = [[record "a.txt" "a1" T1; record "b.txt" "b1" T1]]
  /\ objectModifications run = [record "a.txt" "a2" T2]
  /\ map author_When (commits (world run)) = [T1]
  /\ map tree (commits (world run))
     = [ {[ "a.txt" := textOf "a.txt" "a1"; "b.txt" := textOf "b.txt" "b1" ]} ]
  /\ CallGetObject "logs" "a.txt" "a2" ∉ calls (world run).
Proof.
  split; [reflexivity|]. split; [reflexivity|]. split; [reflexivity|].
  split; [reflexivity|]. split; [by vm_compute|].
  vm_compute. intros H. repeat (inversion H as [|? ? ? H']; clear H; rename H' into H).
Qed.

(** ** downloadFile *)

Lemma downloadFile_fetch_error env object w err :
  GetObject env w (Bucket object) (Key object) (VersionId object) = inl err ->
  (downloadFile env object w).1 = Some err.
Proof. intros H. unfold downloadFile. by rewrite H. Qed.

(** When [downloadFile] returns nil, the object was fetched and the file at
    its local path holds the bytes that [io.ReadAll] returned. *)
Lemma downloadFile_nil_written env object w :
  (downloadFile env object w).1 = None ->
  exists result,
    GetObject env w (Bucket object) (Key object) (VersionId object) = inr result
    /\ files (downloadFile env object w).2
         !! (toLocalPath env object
               (call (CallGetObject (Bucket object) (Key object) (VersionId object)) w)).1
       = Some (body_read result).
Proof.
  unfold downloadFile.
  destruct (GetObject env w _ _ _) as [err|result]; [done|].
  destruct (toLocalPath env object _) as [filename w2]. simpl.
  intros Hnil. exists result. split; [done|].
  repeat case_match; simplify_eq; simpl in *; try done; by rewrite lookup_insert_eq.
Qed.

(** With a file system that does not fail, an error met while the body is
    read is printed but not returned. *)
Lemma downloadFile_drops_read_error env object w result e :
  GetObject env w (Bucket object) (Key object) (VersionId object) = inr result ->
  body_err result = Some e ->
  (forall w' p, os_MkdirAll env w' p = None) ->
  (forall w' p, os_Create env w' p = None) ->
  (forall w' p b, File_Write env w' p b = None) ->
  (downloadFile env object w).1 = None
  /\ ErrorMessage e ∈ output (downloadFile env object w).2.
Proof.
  intros Hget Hbody Hmk Hcr Hwr. unfold downloadFile. rewrite Hget.
  destruct (toLocalPath env object _) as [filename w2].
  destruct (Stat_IsNotExist env w2 _); rewrite ?Hmk, Hcr, Hbody, Hwr; simpl;
    (split; [done|]); apply elem_of_app; right; by apply list_elem_of_singleton.
Qed.

(** C8 on the code.  The body of the object breaks after three bytes.
    [downloadFile] logs and prints the read error, writes the three bytes
    to the local path and returns nil. *)
Theorem downloadFile_hides_read_error :
  let object := record "a.txt" "a1" T1 in
  let result := downloadFile brokenEnv object emptyWorld in
  GetObject brokenEnv emptyWorld "logs" "a.txt" "a1"
    = inr {| body_read := take 3 (textOf "a.txt" "a1");
             body_err := Some "unexpected EOF" |}
  /\ result.1 = None
  /\ files result.2 !! "/out/logs/a.txt" = Some (take 3 (textOf "a.txt" "a1"))
  /\ output result.2
     = [Log (LogReadBodyFailed "a.txt" "a1"); ErrorMessage "unexpected EOF"].
Proof. by vm_compute. Qed.

(** ** main *)

Lemma sort_Slice_nil (srt : SortSlice) {A} (less : A -> A -> bool) :
  sort_Slice srt A less [] = [].
Proof. apply Permutation_nil. symmetry. apply sort_Slice_perm. Qed.

(** C2.  When [ListObjectsV2] fails, the failure is logged and printed and
    that is all the rest of the run does: the call to [ListObjectsV2] is
    the last call outside the process, so no versions are listed and
    nothing is fetched, staged or committed; the object set and the
    sequence of records are empty, no buffer reaches [applyGitChanges],
    and files, index and commits stay as they were. *)
Theorem listing_failure_ends_the_run (srt : SortSlice) (env : Env)
    (bucket outputDir : string) (repo : gitContainer) (w : World) (err : error) :
  ListObjectsV2 env w bucket = inl err ->
  let result := pipeline srt env bucket outputDir repo w in
  output result.2
  = (output w ++ [Log (LogListObjectsFailed bucket); ErrorMessage err])%list
  /\ calls result.2 = (calls w ++ [CallListObjectsV2 bucket])%list
  /\ files result.2 = files w
  /\ index result.2 = index w
  /\ commits result.2 = commits w
  /\ exists run,
       result.1 = ReachedEnd [] (Some err) [] run
       /\ attempted run = []
       /\ objectModifications run = []
       /\ world run = result.2.
Proof.
  intros Herr result.
  assert (result
          = (ReachedEnd [] (Some err) []
               (replayS3Changes env [] repo
                  (errorMessage err
                     (emit (Log (LogListObjectsFailed bucket))
                        (call (CallListObjectsV2 bucket) w)))),
             errorMessage err
               (emit (Log (LogListObjectsFailed bucket))
                  (call (CallListObjectsV2 bucket) w)))) as ->.
  { unfold result, pipeline, queryS3Bucket, queryS3Versions.
    rewrite Herr. simpl. by rewrite sort_Slice_nil. }
  simpl. rewrite <- app_assoc. repeat split. by eexists.
Qed.

(** The same from the command line: with a bucket that cannot be listed,
    [main] opens the repository, creates the client, prints the listing
    error and returns at the end of its body. *)
Lemma main_with_unlistable_bucket :
  let result := main stableSlice unlistableEnv scenarioFlags emptyWorld in
  (exists run, result.1 = ReachedEnd [] (Some "AccessDenied") [] run)
  /\ output result.2
     = [Log (LogListObjectsFailed "logs"); ErrorMessage "AccessDenied"]
  /\ calls result.2
     = [CallStat "/out/logs"; CallPlainOpen "/out/logs"; CallWorktree "/out/logs";
        CallLoadDefaultConfig None; CallListObjectsV2 "logs"].
Proof. split; [by eexists|]. by vm_compute. Qed.


(** C9, as the code has it.  Without a bucket name [main] prints the usage
    text and returns; it calls nothing outside the process and leaves
    files, index and commits as they are.  It prints the error message
    after the usage text unless help was asked for. *)
Theorem main_without_bucket (srt : SortSlice) (env : Env) (flags : Flags)
    (w : World) :
  bucketFlag flags = "" ->
  let result := main srt env flags w in
  result.1 = (if helpFlag flags then ReturnHelp else ReturnNoBucket)
  /\ output result.2
     = output w ++ Usage ::
         (if helpFlag flags then []
          else [ErrorMessage "Error: Please provide an S3 bucket"])
  /\ calls result.2 = calls w
  /\ files result.2 = files w
  /\ index result.2 = index w
  /\ commits result.2 = commits w.
Proof.
  intros Hb. unfold main. rewrite Hb. destruct (helpFlag flags); simpl.
  - done.
  - by rewrite <- app_assoc.
Qed.

(** C9, as stated, fails.  Without a bucket name and with the help flag,
    [main] prints the usage text only: no error is reported. *)
Lemma help_without_bucket_reports_no_error :
  let result := main stableSlice scenarioEnv helpNoBucketFlags emptyWorld in
  bucketFlag helpNoBucketFlags = ""
  /\ result.1 = ReturnHelp
  /\ output result.2 = [Usage]
  /\ forall text, ErrorMessage text ∉ output result.2.
Proof.
  split; [done|]. split; [done|]. split; [done|].
  intros text H. simpl in H. apply list_elem_of_singleton in H. discriminate H.
Qed.

(** ** The theorems at work on the scenario *)

Lemma scenarioInput_ascending : ascending scenarioInput.
Proof.
  unfold ascending, scenarioInput.
  repeat constructor; simpl; unfold T1, T2; lia.
Qed.

Lemma longerInput_ascending : ascending longerInput.
Proof.
  unfold ascending, longerInput, scenarioInput.
  repeat constructor; simpl; unfold T0, T1, T2; lia.
Qed.

Lemma queryS3Versions_skips_failed_object_witness :
  let a := {| obj_Key := "a.txt"; obj_Bucket := "logs" |} in
  let b := {| obj_Key := "b.txt"; obj_Bucket := "logs" |} in
  let c := {| obj_Key := "c.txt"; obj_Bucket := "logs" |} in
  let w1 := call (CallListObjectVersions "logs" "a.txt") emptyWorld in
  let w3 := call (CallListObjectVersions "logs" "b.txt")
              (errorMessage "NoSuchKey" (emit (Log LogNoConfiguration)
                 (call (CallListObjectVersions "logs" "c.txt") w1))) in
  ListObjectVersions scenarioEnv w1 "logs" "c.txt" = inl "NoSuchKey"
  /\ exists sorted more,
       queryS3Versions stableSlice scenarioEnv ([a] ++ c :: [b]) "/out" emptyWorld
       = (sorted, None, w3)
       /\ sorted ≡ₚ [record "a.txt" "a2" T2; record "a.txt" "a1" T1]
                     ++ [record "b.txt" "b1" T1]
       /\ (forall v,
             v ∈ [record "a.txt" "a2" T2; record "a.txt" "a1" T1]
             \/ v ∈ [record "b.txt" "b1" T1] -> v ∈ sorted)
       /\ ascending sorted
       /\ output w3
          = output w1 ++ [Log LogNoConfiguration; ErrorMessage "NoSuchKey"] ++ more.
Proof.
  split; [reflexivity|].
  apply (queryS3Versions_skips_failed_object stableSlice scenarioEnv
           [ {| obj_Key := "a.txt"; obj_Bucket := "logs" |} ]
           [ {| obj_Key := "b.txt"; obj_Bucket := "logs" |} ]
           {| obj_Key := "c.txt"; obj_Bucket := "logs" |} "/out" emptyWorld);
    reflexivity.
Defined.

Lemma changesets_group_equal_timestamps_witness :
  ascending scenarioInput
  /\ Forall (fun v => LastModified v <> time_zero) scenarioInput
  /\ let run := replayS3Changes scenarioEnv scenarioInput scenarioRepo emptyWorld in
     (exists rest,
         scenarioInput = concat (map members (changesets run)) ++ rest
         /\ (exit run = InputExhausted <-> rest = []))
     /\ Forall sameInstant (changesets run)
     /\ StronglySorted Z.lt (map timestamp (changesets run))
     /\ (forall i j ci cj x y,
           changesets run !! i = Some ci -> changesets run !! j = Some cj ->
           x ∈ members ci -> y ∈ members cj ->
           (LastModified x = LastModified y <-> i = j)).
Proof.
  assert (Forall (fun v => LastModified v <> time_zero) scenarioInput) as Hnz.
  { unfold scenarioInput. repeat constructor; simpl; unfold time_zero, T1, T2; lia. }
  split; [exact scenarioInput_ascending|]. split; [exact Hnz|].
  exact (changesets_group_equal_timestamps scenarioEnv scenarioRepo scenarioInput
           emptyWorld scenarioInput_ascending Hnz).
Defined.

Lemma commits_dated_by_last_member_witness :
  ascending longerInput
  /\ let run := replayS3Changes scenarioEnv longerInput scenarioRepo emptyWorld in
     exists new,
       commits (world run) = commits emptyWorld ++ new
       /\ Forall2 (fun c cs =>
            exists x, last (members cs) = Some x
              /\ message c = ModificationOn (LastModified x)
              /\ author_When c = LastModified x
              /\ author_When c = timestamp cs
              /\ fixedAuthor c) new (committed run)
       /\ StronglySorted Z.lt (map author_When new)
       /\ StronglySorted Z.le (map author_When new).
Proof.
  split; [exact longerInput_ascending|].
  exact (commits_dated_by_last_member scenarioEnv scenarioRepo longerInput
           emptyWorld longerInput_ascending).
Defined.

Lemma flushed_buffers_nonempty_witness :
  ascending longerInput
  /\ let run := replayS3Changes scenarioEnv longerInput scenarioRepo emptyWorld in
     Forall (fun cs => members cs <> []) (attempted run)
     /\ exists new,
          commits (world run) = commits emptyWorld ++ new
          /\ Forall2 (fun c cs =>
               members cs <> []
               /\ (forall x, x ∈ members cs ->
                     CallAdd (toBasenamePath x) ∈ calls (world run))
               /\ author_When c <> time_zero
               /\ exists x, x ∈ members cs /\ author_When c = LastModified x)
             new (committed run).
Proof.
  split; [exact longerInput_ascending|].
  destruct (flushed_buffers_nonempty scenarioEnv scenarioRepo longerInput emptyWorld)
    as [Hfilled Hdated].
  split; [exact Hfilled|]. exact (Hdated longerInput_ascending).
Defined.

Lemma failure_aborts_the_run_witness :
  let pre :=
    [record "c.txt" "c0" T0; record "a.txt" "a1" T1; record "b.txt" "b1" T1] in
  let version := record "a.txt" "a2" T2 in
  let post := [record "c.txt" "c3" T3] in
  let err := DownloadError "AccessDenied" in
  let run1 := replayS3Changes deniedEnv pre scenarioRepo emptyWorld in
  let run := replayS3Changes deniedEnv (pre ++ version :: post) scenarioRepo
               emptyWorld in
  (exit run1 = InputExhausted
   /\ After (LastModified version) (currentDate run1) = true
   /\ map members (applied run1) = [[record "c.txt" "c0" T0]]
   /\ objectModifications run1 = [record "a.txt" "a1" T1; record "b.txt" "b1" T1]
   /\ ReplayFails deniedEnv scenarioRepo (objectModifications run1) (world run1) err)
  /\ exists new w1,
       exit run = Aborted err
       /\ applied run = applied run1
       /\ objectModifications run = objectModifications run1
       /\ (forall post',
             replayS3Changes deniedEnv (pre ++ version :: post') scenarioRepo
               emptyWorld = run)
       /\ commits (world run1) = commits emptyWorld ++ new
       /\ Forall2 (fun c cs => commitFor (members cs) c) new (applied run1)
       /\ applyGitChanges deniedEnv scenarioRepo (objectModifications run1)
            (world run1) = (Some err, w1)
       /\ world run
          = errorMessage (go_error err)
              (emit (Log (LogApplyFailed (length (objectModifications run1)))) w1)
       /\ commits (world run) = commits emptyWorld ++ new.
Proof.
  assert (ReplayFails deniedEnv scenarioRepo
            [record "a.txt" "a1" T1; record "b.txt" "b1" T1]
            (world (replayS3Changes deniedEnv
                      [record "c.txt" "c0" T0; record "a.txt" "a1" T1;
                       record "b.txt" "b1" T1] scenarioRepo emptyWorld))
            (DownloadError "AccessDenied")) as Hfails.
  { eapply (DownloadFails _ _ _ _ [record "a.txt" "a1" T1] (record "b.txt" "b1" T1) []);
      vm_compute; reflexivity. }
  split; [by repeat split|].
  apply (failure_aborts_the_run deniedEnv scenarioRepo
           [record "c.txt" "c0" T0; record "a.txt" "a1" T1; record "b.txt" "b1" T1]
           [record "c.txt" "c3" T3] (record "a.txt" "a2" T2) emptyWorld
           (DownloadError "AccessDenied"));
    [reflexivity|reflexivity|exact Hfails].
Defined.


Lemma listing_failure_ends_the_run_witness :
  ListObjectsV2 unlistableEnv emptyWorld "logs" = inl "AccessDenied"
  /\ let result :=
       pipeline stableSlice unlistableEnv "logs" "/out" scenarioRepo emptyWorld in
     output result.2
     = ([] ++ [Log (LogListObjectsFailed "logs"); ErrorMessage "AccessDenied"])%list
     /\ calls result.2 = ([] ++ [CallListObjectsV2 "logs"])%list
     /\ files result.2 = ∅
     /\ index result.2 = ∅
     /\ commits result.2 = []
     /\ exists run,
          result.1 = ReachedEnd [] (Some "AccessDenied") [] run
          /\ attempted run = []
          /\ objectModifications run = []
          /\ world run = result.2.
Proof.
  split; [reflexivity|].
  apply (listing_failure_ends_the_run stableSlice unlistableEnv "logs" "/out"
           scenarioRepo emptyWorld "AccessDenied"). reflexivity.
Defined.

Lemma main_without_bucket_witness :
  bucketFlag noBucketFlags = ""
  /\ let result := main stableSlice scenarioEnv noBucketFlags emptyWorld in
     result.1 = ReturnNoBucket
     /\ output result.2
        = output emptyWorld
          ++ [Usage; ErrorMessage "Error: Please provide an S3 bucket"]
     /\ calls result.2 = calls emptyWorld
     /\ files result.2 = files emptyWorld
     /\ index result.2 = index emptyWorld
     /\ commits result.2 = commits emptyWorld.
Proof.
  split; [reflexivity|].
  apply (main_without_bucket stableSlice scenarioEnv noBucketFlags emptyWorld).
  reflexivity.
Defined.

(** * Further properties of the program *)

(** ** The loop of replayS3Changes, on any input *)

Lemma length_concat_filled {A} (l : list (list A)) :
  Forall (fun x => x <> []) l -> (length l <= length (concat l))%nat.
Proof.
  induction 1 as [|x l Hx Hl IH]; simpl; [done|].
  rewrite length_app. destruct x; [done|]. simpl. lia.
Qed.

(** X1.  Whatever the input and the outside, the loop loses no record and never
    reorders one: the changesets applied, then the buffer, then the input
    that was not read make up the input.  No applied changeset is empty,
    and input is left unread exactly when the run was aborted. *)
Theorem replay_keeps_input_order (env : Env) (container : gitContainer)
    (versions : list S3VersionedObject) (w : World) :
  let run := replayS3Changes env versions container w in
  exists rest,
    versions = concat (map members (applied run)) ++ objectModifications run ++ rest
    /\ (exit run = InputExhausted <-> rest = [])
    /\ Forall (fun cs => members cs <> []) (applied run).
Proof.
  intros run.
  destruct (replayLoop_rule _ env container
              (StepClosed_and _ _ Filled_closed (Partitions_closed versions))
              versions [] time_zero [] w)
    as (rest & [[_ Hfilled] Hpart] & Hrest & _); [by split|].
  by exists rest.
Qed.

(** X2.  A run over at least one record adds fewer commits than there are
    records, whatever the outside does. *)
Theorem fewer_commits_than_records (env : Env) (container : gitContainer)
    (versions : list S3VersionedObject) (w : World) :
  versions <> [] ->
  let run := replayS3Changes env versions container w in
  exists new,
    commits (world run) = commits w ++ new
    /\ (length new < length versions)%nat.
Proof.
  intros Hne run.
  destruct (replayLoop_world env container versions [] time_zero [] w)
    as (_ & (added & new & Hadded & Hnew & Hall) & _).
  destruct (replayLoop_rule _ env container
              (StepClosed_and _ _ Filled_closed (Partitions_closed versions))
              versions [] time_zero [] w)
    as (rest & [[Hstart Hfilled] Hpart] & Hrest & Hcd); [by split|].
  fold (replayS3Changes env versions container w) in *.
  fold run in Hadded, Hnew, Hall, Hstart, Hfilled, Hpart, Hrest, Hcd.
  exists new. split; [done|].
  rewrite (Forall2_length _ _ _ Hall). simpl in Hadded. rewrite <- Hadded.
  pose proof (length_concat_filled (map members (applied run))) as Hlen.
  rewrite length_map in Hlen.
  assert (length (applied run) <= length (concat (map members (applied run))))%nat
    as Happlied.
  { apply Hlen. apply Forall_fmap. by eapply Forall_impl; [exact Hfilled|]. }
  unfold Partitions in Hpart.
  assert (length versions
          = length (concat (map members (applied run)))
            + length (objectModifications run) + length rest)%nat as Hv.
  { rewrite Hpart at 1. rewrite !length_app. lia. }
  assert (objectModifications run <> []) as Hbuf.
  { intros Hb. destruct (Hstart Hb) as [Hz Hd].
    destruct (exit run) eqn:He.
    - rewrite (proj1 Hrest eq_refl), Hb, Hd in Hpart. by subst versions.
    - by apply Hcd. }
  unfold committed.
  destruct (exit run) as [|err] eqn:He.
  - destruct (objectModifications run); [done|]. simpl in Hv. lia.
  - assert (rest <> []) as Hr.
    { intros ->. destruct Hrest as [_ Hrest]. by specialize (Hrest eq_refl). }
    destruct rest; [done|]. destruct (objectModifications run); [done|].
    simpl in Hv. destruct err; rewrite ?length_app; simpl; lia.
Qed.

(** X3.  Reading [xs ++ ys] is reading [xs] and then, unless that run was
    aborted, going on with [ys] from the variables and the world the first
    run left; an aborted run reads nothing more. *)
Theorem replayLoop_app (env : Env) (container : gitContainer)
    (xs ys : list S3VersionedObject) (done : list Changeset) (cd : Instant)
    (buf : list S3VersionedObject) (w : World) :
  replayLoop env container (xs ++ ys) done cd buf w
  = let run := replayLoop env container xs done cd buf w in
    match exit run with
    | InputExhausted =>
        replayLoop env container ys (applied run) (currentDate run)
          (objectModifications run) (world run)
    | Aborted _ => run
    end.
Proof.
  revert done cd buf w. induction xs as [|x xs IH]; intros done cd buf w; simpl.
  - done.
  - destruct (After (LastModified x) _); [|apply IH].
    destruct (applyGitChanges env container buf w) as [[err|] w1]; [done|apply IH].
Qed.

Lemma replayLoop_one_instant env container versions done cd buf w t :
  Forall (fun v => LastModified v = t) versions ->
  cd = time_zero \/ cd = t ->
  replayLoop env container versions done cd buf w
  = {| applied := done;
       currentDate := match versions with [] => cd | _ => t end;
       objectModifications := buf ++ versions;
       exit := InputExhausted; world := w |}.
Proof.
  intros Hall. revert cd buf.
  induction Hall as [|v versions Hv Hall IH]; intros cd buf Hcd; simpl.
  - by rewrite app_nil_r.
  - assert ((if time_eqb cd time_zero then LastModified v else cd) = t) as ->.
    { unfold time_eqb, time_zero in *. destruct (cd =? 0) eqn:Hz; [done|].
      apply Z.eqb_neq in Hz. by destruct Hcd. }
    unfold After. rewrite Hv, Z.ltb_irrefl.
    rewrite IH; [|by right]. rewrite <- app_assoc. simpl.
    by destruct versions.
Qed.

(** X4.  When all records carry the same timestamp, the run calls nothing and
    changes nothing: every record stays in the buffer, nothing is fetched
    and no commit is made. *)
Theorem one_instant_commits_nothing (env : Env) (container : gitContainer)
    (versions : list S3VersionedObject) (w : World) (t : Instant) :
  Forall (fun v => LastModified v = t) versions ->
  let run := replayS3Changes env versions container w in
  world run = w /\ applied run = [] /\ objectModifications run = versions
  /\ exit run = InputExhausted.
Proof.
  intros Hall run. unfold run, replayS3Changes.
  rewrite (replayLoop_one_instant _ _ _ _ _ _ _ t Hall); [done|by left].
Qed.

(** ** The calls a step records *)

Lemma called_refl w : called [] w w.
Proof. unfold called. by rewrite app_nil_r. Qed.

Lemma called_trans k1 k2 w1 w2 w3 :
  called k1 w1 w2 -> called k2 w2 w3 -> called (k1 ++ k2) w1 w3.
Proof. unfold called. intros H1 H2. by rewrite H2, H1, app_assoc. Qed.

Lemma fetches_app k1 k2 : fetches (k1 ++ k2) = fetches k1 ++ fetches k2.
Proof. apply omap_app. Qed.

Lemma toLocalPath_fst env svo w : (toLocalPath env svo w).1 = localPathOf env svo.
Proof. unfold toLocalPath, localPathOf. by case_match. Qed.

Lemma toLocalPath_calls env svo w : calls (toLocalPath env svo w).2 = calls w.
Proof. unfold toLocalPath. by case_match. Qed.

Lemma toLocalPath_files env svo w : files (toLocalPath env svo w).2 = files w.
Proof. unfold toLocalPath. by case_match. Qed.


(** [downloadFile] asks S3 for its object once, before anything else, and
    beyond that only touches the file system. *)
Lemma downloadFile_calls env object w :
  exists k,
    called (CallGetObject (Bucket object) (Key object) (VersionId object) :: k)
      w (downloadFile env object w).2
    /\ fetches k = [] /\ Forall (fun c => isReplayCall c = true) k.
Proof.
  unfold downloadFile, toLocalPath, called.
  repeat case_match; simplify_eq; simpl;
    rewrite <- ?app_assoc; simpl;
    (eexists; split; [reflexivity|]; split; [reflexivity|]; by repeat constructor).
Qed.

Lemma stage_calls env container path w :
  calls (stage env container path w) = calls w.
Proof. unfold stage. by case_match. Qed.

(** The loop over a changeset fetches its objects in order and stops at the
    first failure: the requests it makes are those for the first objects of
    the list, for all of them when it runs to its end. *)
Lemma stageObjects_calls env container objects files0 date0 w :
  let r := stageObjects env container objects files0 date0 w in
  exists k,
    called k w r.2
    /\ Forall (fun c => isReplayCall c = true) k
    /\ fetches k `prefix_of` map fetchOf objects
    /\ (forall fs, r.1 = inr fs -> fetches k = map fetchOf objects).
Proof.
  revert files0 date0 w.
  induction objects as [|object rest IH]; intros files0 date0 w; simpl.
  - exists []. split; [apply called_refl|]. by repeat split.
  - destruct (downloadFile_calls env object w) as (kd & Hkd & Hfd & Hrd).
    destruct (downloadFile env object w) as [[err|] w1]; simpl in *.
    + pose proof (toLocalPath_calls env object w1) as Hp.
      destruct (toLocalPath env object w1) as [localPath w2]; simpl in *.
      eexists. split; [unfold called in *; simpl; rewrite Hp; exact Hkd|].
      split; [by constructor|]. split; [|done].
      simpl. rewrite Hfd. by apply prefix_cons, prefix_nil.
    + pose proof (toLocalPath_calls env object w1) as Hp.
      destruct (toLocalPath env object w1) as [localPath w2]; simpl in *.
      destruct (Tree_Add env w2 (toBasenamePath object)) as [err|].
      * pose proof (toLocalPath_calls env object
                      (call (CallAdd (toBasenamePath object)) w2)) as Hq.
        destruct (toLocalPath env object _) as [localPath' w4]; simpl in *.
        exists (CallGetObject (Bucket object) (Key object) (VersionId object)
                  :: kd ++ [CallAdd (toBasenamePath object)]).
        split.
        { unfold called in *. simpl. rewrite Hq, Hp, Hkd.
          by rewrite <- !app_assoc. }
        split.
        { constructor; [done|]. apply Forall_app. by split; [|repeat constructor]. }
        split; [|done]. simpl. rewrite fetches_app, Hfd. simpl.
        by apply prefix_cons, prefix_nil.
      * destruct (IH (files0 ++ [localPath]) (LastModified object)
                    (stage env container (toBasenamePath object)
                       (call (CallAdd (toBasenamePath object)) w2)))
          as (kr & Hkr & Hrr & Hpre & Hall).
        exists ((CallGetObject (Bucket object) (Key object) (VersionId object)
                   :: kd ++ [CallAdd (toBasenamePath object)]) ++ kr).
        split.
        { eapply called_trans; [|exact Hkr]. unfold called in *.
          rewrite stage_calls. simpl. rewrite Hp, Hkd. by rewrite <- !app_assoc. }
        split.
        { apply Forall_app. split; [|done]. constructor; [done|].
          apply Forall_app. by split; [|repeat constructor]. }
        rewrite fetches_app. simpl. rewrite fetches_app, Hfd. simpl.
        split; [by apply prefix_cons|].
        intros fs Hfs. by rewrite (Hall fs Hfs).
Qed.

Lemma applyGitChanges_calls env container objects w :
  let r := applyGitChanges env container objects w in
  exists k,
    called k w r.2
    /\ Forall (fun c => isReplayCall c = true) k
    /\ fetches k `prefix_of` map fetchOf objects
    /\ (r.1 = None -> fetches k = map fetchOf objects).
Proof.
  unfold applyGitChanges.
  destruct (stageObjects_calls env container objects [] time_zero w)
    as (k & Hk & Hr & Hpre & Hall).
  destruct (stageObjects env container objects [] time_zero w)
    as [[err|[fs date]] w1]; simpl in *.
  - exists k. by repeat split.
  - specialize (Hall _ eq_refl).
    destruct (Tree_Commit env w1 _ _) as [err|]; simpl.
    + exists (k ++ [CallCommit (ModificationOn date) date]).
      split; [unfold called in *; simpl; by rewrite Hk, <- app_assoc|].
      split; [apply Forall_app; by split; [|repeat constructor]|].
      rewrite fetches_app. simpl. rewrite app_nil_r. by split.
    + exists (k ++ [CallCommit (ModificationOn date) date; CallCommitObject]).
      split.
      { unfold called in *. destruct (Repository_CommitObject env _); simpl;
          by rewrite Hk, <- !app_assoc. }
      split; [apply Forall_app; by split; [|repeat constructor]|].
      rewrite fetches_app. simpl. rewrite app_nil_r. split; [done|].
      by destruct (Repository_CommitObject env _).
Qed.

Lemma replayLoop_calls env container versions done cd buf w :
  let run := replayLoop env container versions done cd buf w in
  exists k added part,
    called k w (world run)
    /\ Forall (fun c => isReplayCall c = true) k
    /\ applied run = done ++ added
    /\ fetches k = map fetchOf (concat (map members added)) ++ part
    /\ part `prefix_of` map fetchOf (objectModifications run)
    /\ (exit run = InputExhausted -> part = []).
Proof.
  revert done cd buf w.
  induction versions as [|version rest IH]; intros done cd buf w; simpl.
  - exists [], [], []. split; [apply called_refl|]. rewrite app_nil_r.
    repeat split; try done. apply prefix_nil.
  - destruct (After (LastModified version) _); [|apply IH].
    destruct (applyGitChanges_calls env container buf w) as (k1 & Hk1 & Hr1 & Hpre & Hall).
    destruct (applyGitChanges env container buf w) as [[err|] w1]; simpl in *.
    + exists k1, [], (fetches k1). rewrite app_nil_r. by repeat split.
    + destruct (IH (done ++ [{| timestamp := if time_eqb cd time_zero
                                             then LastModified version else cd;
                                members := buf |}])
                   (LastModified version) [version] w1)
        as (k2 & added & part & Hk2 & Hr2 & Happ & Hf & Hp & He).
      eexists (k1 ++ k2), (_ :: added), part.
      split; [by eapply called_trans|]. split; [by apply Forall_app|].
      split; [by rewrite Happ, <- app_assoc|].
      split; [|done].
      rewrite fetches_app, Hf, (Hall eq_refl). simpl.
      by rewrite map_app, <- app_assoc.
Qed.

(** X5.  The records a run fetches are, in order, the records of the changesets
    it applied and, when it was aborted, the first records of the buffer it
    failed on: the requests follow the input, none is skipped, and the
    buffer left at the end of the input is not fetched at all. *)
Theorem replay_fetches_in_input_order (env : Env) (container : gitContainer)
    (versions : list S3VersionedObject) (w : World) :
  let run := replayS3Changes env versions container w in
  exists k part,
    calls (world run) = calls w ++ k
    /\ fetches k = map fetchOf (concat (map members (applied run))) ++ part
    /\ part `prefix_of` map fetchOf (objectModifications run)
    /\ (exit run = InputExhausted -> part = [])
    /\ fetches k `prefix_of` map fetchOf versions.
Proof.
  intros run.
  destruct (replayLoop_calls env container versions [] time_zero [] w)
    as (k & added & part & Hk & _ & Happ & Hf & Hp & He).
  destruct (replayLoop_rule _ env container (Partitions_closed versions) versions
              [] time_zero [] w (Partitions_start versions))
    as (rest & Hpart & _).
  fold (replayS3Changes env versions container w) in *.
  fold run in Hk, Happ, Hf, Hp, He, Hpart.
  simpl in Happ. subst added. exists k, part.
  split; [exact Hk|]. split; [done|]. split; [done|]. split; [done|].
  unfold Partitions in Hpart. rewrite Hf, Hpart, !map_app.
  apply prefix_app. etrans; [exact Hp|]. by apply prefix_app_r.
Qed.


(** ** downloadFile and the files *)

(** X7.  [downloadFile] changes no file but the one at the local path of its
    object, and leaves the index and the commits as they are. *)
Theorem downloadFile_touches_one_file (env : Env) (object : S3VersionedObject)
    (w : World) (path : string) :
  path <> localPathOf env object ->
  let w' := (downloadFile env object w).2 in
  files w' !! path = files w !! path
  /\ index w' = index w /\ commits w' = commits w.
Proof.
  intros Hne w'. destruct (downloadFile_keeps env object w) as [Hc Hi].
  split; [|by split]. unfold w', downloadFile.
  destruct (GetObject env w _ _ _) as [err|result]; [done|].
  pose proof (toLocalPath_fst env object
    (call (CallGetObject (Bucket object) (Key object) (VersionId object)) w)) as Hfst.
  pose proof (toLocalPath_files env object
    (call (CallGetObject (Bucket object) (Key object) (VersionId object)) w)) as Hfiles.
  destruct (toLocalPath env object _) as [filename w2]. simpl in *. subst filename.
  repeat case_match; simplify_eq; simpl;
    rewrite ?lookup_insert_ne by done; by rewrite Hfiles.
Qed.

(** X8.  When [downloadFile] returns nil, the object was fetched and the file at
    the local path of the object holds the bytes that were read from its
    body. *)
Theorem downloadFile_writes_what_it_read (env : Env) (object : S3VersionedObject)
    (w : World) :
  (downloadFile env object w).1 = None ->
  exists result,
    GetObject env w (Bucket object) (Key object) (VersionId object) = inr result
    /\ files (downloadFile env object w).2 !! localPathOf env object
       = Some (body_read result).
Proof.
  intros Hnil. destruct (downloadFile_nil_written env object w Hnil) as (result & Hget & Hf).
  exists result. split; [done|]. by rewrite toLocalPath_fst in Hf.
Qed.

(** X9.  When [filepath.Abs] fails, [toLocalPath] prints the error and hands
    back a text that starts with [Error: ]; [downloadFile] goes on with it
    as if it were a path and, the file system permitting, writes the body
    to the file of that name and returns nil. *)
Theorem downloadFile_writes_to_error_text (env : Env) (object : S3VersionedObject)
    (w : World) (err : error) (result : Body) :
  filepath_Abs env
    (RepositoryRoot object +:+ "/" +:+ Bucket object +:+ "/" +:+ Key object)
    = inl err ->
  GetObject env w (Bucket object) (Key object) (VersionId object) = inr result ->
  (forall w' p, os_MkdirAll env w' p = None) ->
  (forall w' p, os_Create env w' p = None) ->
  (forall w' p b, File_Write env w' p b = None) ->
  let r := downloadFile env object w in
  r.1 = None
  /\ files r.2 !! ("Error: " +:+ err) = Some (body_read result)
  /\ Println err ∈ output r.2.
Proof.
  intros Habs Hget Hmk Hcr Hwr r. unfold r, downloadFile, toLocalPath.
  rewrite Hget, Habs. simpl.
  destruct (Stat_IsNotExist env _ _); rewrite ?Hmk, Hcr, Hwr; simpl;
    (split; [done|]); (split; [by rewrite lookup_insert_eq|]);
    destruct (body_err result); simpl; set_unfold; naive_solver.
Qed.

(** ** applyGitChanges and what it prints *)

Lemma stageObjects_output env container objects files0 date0 w :
  let r := stageObjects env container objects files0 date0 w in
  match r.1 with
  | inl err =>
      exists before line,
        output r.2 = before ++ [Log line; ErrorMessage (go_error err)]
  | inr (fs, _) => fs = files0 ++ map (localPathOf env) objects
  end.
Proof.
  revert files0 date0 w.
  induction objects as [|object rest IH]; intros files0 date0 w; simpl.
  - by rewrite app_nil_r.
  - destruct (downloadFile env object w) as [[err|] w1]; simpl.
    + destruct (toLocalPath env object w1) as [localPath w2]; simpl.
      eexists _, _. by rewrite <- app_assoc.
    + pose proof (toLocalPath_fst env object w1) as Hfst.
      destruct (toLocalPath env object w1) as [localPath w2]; simpl in *.
      destruct (Tree_Add env w2 (toBasenamePath object)) as [err|].
      * destruct (toLocalPath env object _) as [localPath' w4]; simpl.
        eexists _, _. by rewrite <- app_assoc.
      * specialize (IH (files0 ++ [localPath]) (LastModified object)
                      (stage env container (toBasenamePath object)
                         (call (CallAdd (toBasenamePath object)) w2))).
        simpl in IH. destruct (stageObjects env container rest _ _ _)
          as [[e|[fs date]] w']; simpl in *; [done|].
        subst. by rewrite <- app_assoc.
Qed.

(** X10.  Whatever [applyGitChanges] returns, its last words say so: an error it
    returns was printed, right after a log line, as the last thing it did;
    and when it returns nil its last line lists the local paths of the
    objects of the changeset, in order. *)
Theorem applyGitChanges_last_words (env : Env) (container : gitContainer)
    (objects : list S3VersionedObject) (w : World) :
  let r := applyGitChanges env container objects w in
  match r.1 with
  | Some err =>
      exists before line,
        output r.2 = before ++ [Log line; ErrorMessage (go_error err)]
  | None =>
      exists before,
        output r.2 = before ++ [Log (LogApplied (map (localPathOf env) objects))]
  end.
Proof.
  unfold applyGitChanges.
  pose proof (stageObjects_output env container objects [] time_zero w) as Hs.
  destruct (stageObjects env container objects [] time_zero w)
    as [[err|[fs date]] w1]; simpl in *; [done|]. subst fs.
  destruct (Tree_Commit env w1 _ _) as [err|]; simpl.
  - eexists _, _. by rewrite <- app_assoc.
  - destruct (Repository_CommitObject env _) as [err|]; simpl.
    + eexists _, _. by rewrite <- app_assoc.
    + by eexists.
Qed.

(** ** What a commit holds *)





(** ** The version lister and the calls it makes *)

Lemma listVersions_calls env objects repoPath acc w :
  let w' := (listVersions env objects repoPath acc w).2 in
  calls w'
  = calls w ++ map (fun o => CallListObjectVersions (obj_Bucket o) (obj_Key o)) objects
  /\ files w' = files w /\ index w' = index w /\ commits w' = commits w.
Proof.
  revert acc w. induction objects as [|o objects IH]; intros acc w; simpl.
  - by rewrite app_nil_r.
  - destruct (ListObjectVersions env w (obj_Bucket o) (obj_Key o)) as [err|vs];
      edestruct IH as (Hc & Hf & Hi & Hm); rewrite Hc, Hf, Hi, Hm; simpl;
      by rewrite <- app_assoc.
Qed.

Lemma listVersions_records env objects repoPath acc w (Q : S3VersionedObject -> Prop) :
  (forall o vers, o ∈ objects -> Q (toVersioned o repoPath vers)) ->
  Forall Q acc ->
  Forall Q (listVersions env objects repoPath acc w).1.
Proof.
  revert acc w. induction objects as [|o objects IH]; intros acc w HQ Hacc; simpl;
    [done|].
  assert (forall o' vers, o' ∈ objects -> Q (toVersioned o' repoPath vers)) as HQ'.
  { intros o' vers Ho'. apply HQ. by right. }
  destruct (ListObjectVersions env w (obj_Bucket o) (obj_Key o)) as [err|vs].
  - by apply IH.
  - apply IH; [done|]. apply Forall_app. split; [done|].
    apply Forall_fmap, Forall_forall. intros vers _. apply HQ. by left.
Qed.

(** X12.  [queryS3Versions] asks for the versions of every object once, in the
    order of the objects, whether or not the requests fail; it does nothing
    else outside the process and leaves files, index and commits alone. *)
Theorem queryS3Versions_one_request_per_object (srt : SortSlice) (env : Env)
    (objects : list S3Object) (repoPath : string) (w : World) :
  let w' := (queryS3Versions srt env objects repoPath w).2 in
  calls w'
  = calls w ++ map (fun o => CallListObjectVersions (obj_Bucket o) (obj_Key o)) objects
  /\ files w' = files w /\ index w' = index w /\ commits w' = commits w.
Proof.
  unfold queryS3Versions.
  pose proof (listVersions_calls env objects repoPath [] w) as H.
  by destruct (listVersions env objects repoPath [] w).
Qed.

(** X13.  Every record [queryS3Versions] returns is rooted at the path it was
    given and lies in the bucket of one of the objects it was given. *)
Theorem queryS3Versions_records_rooted (srt : SortSlice) (env : Env)
    (objects : list S3Object) (repoPath : string) (w : World) :
  Forall (fun v => RepositoryRoot v = repoPath
                   /\ exists o, o ∈ objects /\ Bucket v = obj_Bucket o)
    (queryS3Versions srt env objects repoPath w).1.1.
Proof.
  unfold queryS3Versions.
  pose proof (listVersions_records env objects repoPath [] w
                (fun v => RepositoryRoot v = repoPath
                          /\ exists o, o ∈ objects /\ Bucket v = obj_Bucket o)) as H.
  destruct (listVersions env objects repoPath [] w) as [listed w1]; simpl in *.
  rewrite sort_Slice_perm. apply H; [|done].
  intros o vers Ho. split; [done|]. by exists o.
Qed.

(** ** main *)

Lemma queryS3Bucket_calls env bucket w :
  calls (queryS3Bucket env bucket w).2 = calls w ++ [CallListObjectsV2 bucket]
  /\ files (queryS3Bucket env bucket w).2 = files w
  /\ index (queryS3Bucket env bucket w).2 = index w
  /\ commits (queryS3Bucket env bucket w).2 = commits w.
Proof. unfold queryS3Bucket. by case_match. Qed.

Lemma pipeline_calls srt env bucket output repo w :
  exists k,
    calls (pipeline srt env bucket output repo w).2 = calls w ++ k
    /\ Forall (fun c => isStorageCall c || isReplayCall c = true) k.
Proof.
  unfold pipeline.
  destruct (queryS3Bucket_calls env bucket w) as (Hb & _).
  destruct (queryS3Bucket env bucket w) as [[raw e] w1]. simpl in Hb.
  unfold queryS3Versions.
  destruct (listVersions_calls env raw output [] w1) as (Hc & _).
  destruct (listVersions env raw output [] w1) as [listed w2]; simpl in *.
  destruct (replayLoop_calls env repo (sort_Slice srt _ lessLastModified listed)
              [] time_zero [] w2) as (k & _ & _ & Hk & Hr & _).
  fold (replayS3Changes env (sort_Slice srt _ lessLastModified listed) repo w2) in *.
  eexists. split.
  { unfold called in Hk. rewrite Hk, Hc, Hb, <- !app_assoc. reflexivity. }
  constructor; [done|]. apply Forall_app. split.
  - apply Forall_fmap, Forall_forall. by intros o _.
  - eapply Forall_impl; [exact Hr|]. intros c Hc'. simpl in *.
    rewrite Hc'. apply orb_true_r.
Qed.

(** X14.  Every record [main] hands to [replayS3Changes] lies in the bucket
    named on the command line and is rooted at the output directory: its
    file is written below [output/bucket], the directory of the
    repository. *)
Theorem pipeline_replays_bucket_records (srt : SortSlice) (env : Env)
    (bucket output : string) (repo : gitContainer) (w : World) :
  exists rawObjects listErr sortedVersions w3,
    (pipeline srt env bucket output repo w).1
    = ReachedEnd rawObjects listErr sortedVersions
        (replayS3Changes env sortedVersions repo w3)
    /\ Forall (fun o => obj_Bucket o = bucket) rawObjects
    /\ Forall (fun v => Bucket v = bucket /\ RepositoryRoot v = output)
         sortedVersions.
Proof.
  unfold pipeline.
  assert (Forall (fun o => obj_Bucket o = bucket) (queryS3Bucket env bucket w).1.1)
    as Hraw.
  { unfold queryS3Bucket. case_match; simpl; [done|].
    apply Forall_fmap, Forall_forall. by intros k _. }
  destruct (queryS3Bucket env bucket w) as [[raw e] w1]. simpl in Hraw.
  unfold queryS3Versions.
  pose proof (listVersions_records env raw output [] w1
                (fun v => Bucket v = bucket /\ RepositoryRoot v = output)) as Hrec.
  destruct (listVersions env raw output [] w1) as [listed w2]; simpl in *.
  eexists _, _, _, _. split; [reflexivity|]. split; [done|].
  rewrite sort_Slice_perm. apply Hrec; [|done].
  intros o vers Ho. split; [|done]. simpl.
  by apply (proj1 (Forall_forall _ _) Hraw).
Qed.

(** X15.  An empty bucket: one request to S3, nothing printed, nothing fetched,
    no commit, and [main] reaches its end. *)
Theorem empty_bucket_changes_nothing (srt : SortSlice) (env : Env)
    (bucket output : string) (repo : gitContainer) (w : World) :
  ListObjectsV2 env w bucket = inr [] ->
  let w1 := call (CallListObjectsV2 bucket) w in
  pipeline srt env bucket output repo w
  = (ReachedEnd [] None []
       {| applied := []; currentDate := time_zero; objectModifications := [];
          exit := InputExhausted; world := w1 |}, w1).
Proof.
  intros Hlist w1. unfold pipeline, queryS3Bucket, queryS3Versions.
  rewrite Hlist. simpl. by rewrite sort_Slice_nil.
Qed.



(** X17.  Without [--profile], the value of [--region] changes nothing at all:
    the client is created from the default configuration alone. *)
Theorem region_ignored_without_profile (srt : SortSlice) (env : Env)
    (flags : Flags) (w : World) (region : string) :
  profileFlag flags = "" ->
  main srt env (withRegion region flags) w = main srt env flags w.
Proof.
  intros Hprofile. unfold main, openRepository, getS3Client, withRegion. simpl.
  by rewrite Hprofile.
Qed.

Lemma openRepository_reopens srt env flags output w :
  (forall w' p, PlainOpen env w' p = None) ->
  exists k,
    calls (openRepository srt env flags output w).2 = calls w ++ k
    /\ Forall (fun c => forall p, c <> CallPlainInit p) k.
Proof.
  intros Hopen. unfold openRepository, getS3Client.
  repeat case_match; simplify_eq; simpl;
    try match goal with
        | H : PlainOpen env _ _ = Some _ |- _ => by rewrite Hopen in H
        end;
    try (rewrite <- ?app_assoc; simpl; eexists; split; [reflexivity|];
         by repeat constructor).
  all: match goal with
       | |- context [pipeline ?s ?e ?b ?o ?r ?w0] =>
           destruct (pipeline_calls s e b o r w0) as (kp & Hkp & Hall)
       end;
    rewrite Hkp; simpl; rewrite <- ?app_assoc; simpl;
    eexists; split; [reflexivity|];
    repeat (constructor; [done|]);
    (eapply Forall_impl; [exact Hall|]); by intros c Hc p ->.
Qed.

(** X18.  A repository that can be opened is never initialized again: when
    [git.PlainOpen] succeeds, [main] does not call [git.PlainInit]. *)
Theorem main_reopens_existing_repository (srt : SortSlice) (env : Env)
    (flags : Flags) (w : World) :
  (forall w' p, PlainOpen env w' p = None) ->
  exists k,
    calls (main srt env flags w).2 = calls w ++ k
    /\ Forall (fun c => forall p, c <> CallPlainInit p) k.
Proof.
  intros Hopen. unfold main.
  destruct (helpFlag flags); [|destruct (decide (bucketFlag flags = ""))];
    [| |destruct (decide (outputFlag flags = ""));
         [destruct (filepath_Abs env "") as [err|abspath]|]];
    try (by apply openRepository_reopens);
    simpl; exists []; by rewrite app_nil_r.
Qed.

(** ** The further properties at work on the scenario *)

Lemma fewer_commits_than_records_witness :
  scenarioInput <> []
  /\ let run := replayS3Changes scenarioEnv scenarioInput scenarioRepo emptyWorld in
     exists new,
       commits (world run) = commits emptyWorld ++ new
       /\ (length new < length scenarioInput)%nat.
Proof.
  split; [discriminate|].
  apply (fewer_commits_than_records scenarioEnv scenarioRepo scenarioInput emptyWorld).
  discriminate.
Defined.

Lemma one_instant_commits_nothing_witness :
  let versions := [record "a.txt" "a1" T1; record "b.txt" "b1" T1] in
  Forall (fun v => LastModified v = T1) versions
  /\ let run := replayS3Changes scenarioEnv versions scenarioRepo emptyWorld in
     world run = emptyWorld /\ applied run = [] /\ objectModifications run = versions
     /\ exit run = InputExhausted.
Proof.
  assert (Forall (fun v => LastModified v = T1)
            [record "a.txt" "a1" T1; record "b.txt" "b1" T1]) as Hall
    by (repeat constructor).
  split; [exact Hall|].
  exact (one_instant_commits_nothing scenarioEnv scenarioRepo _ emptyWorld T1 Hall).
Defined.

Lemma downloadFile_touches_one_file_witness :
  let object := record "a.txt" "a1" T1 in
  "/out/logs/b.txt" <> localPathOf scenarioEnv object
  /\ let w' := (downloadFile scenarioEnv object emptyWorld).2 in
     files w' !! "/out/logs/b.txt" = files emptyWorld !! "/out/logs/b.txt"
     /\ index w' = index emptyWorld /\ commits w' = commits emptyWorld.
Proof.
  split; [discriminate|].
  apply (downloadFile_touches_one_file scenarioEnv (record "a.txt" "a1" T1)
           emptyWorld "/out/logs/b.txt").
  discriminate.
Defined.

Lemma downloadFile_writes_what_it_read_witness :
  let object := record "a.txt" "a1" T1 in
  (downloadFile scenarioEnv object emptyWorld).1 = None
  /\ exists result,
       GetObject scenarioEnv emptyWorld (Bucket object) (Key object) (VersionId object)
       = inr result
       /\ files (downloadFile scenarioEnv object emptyWorld).2
            !! localPathOf scenarioEnv object
          = Some (body_read result).
Proof.
  split; [reflexivity|].
  apply (downloadFile_writes_what_it_read scenarioEnv (record "a.txt" "a1" T1)
           emptyWorld).
  reflexivity.
Defined.

Lemma downloadFile_writes_to_error_text_witness :
  let object := record "a.txt" "a1" T1 in
  filepath_Abs noCwdEnv "/out/logs/a.txt" = inl "getwd: no such file or directory"
  /\ let r := downloadFile noCwdEnv object emptyWorld in
     r.1 = None
     /\ files r.2 !! "Error: getwd: no such file or directory"
        = Some (textOf "a.txt" "a1")
     /\ Println "getwd: no such file or directory" ∈ output r.2.
Proof.
  split; [reflexivity|].
  apply (downloadFile_writes_to_error_text noCwdEnv (record "a.txt" "a1" T1)
           emptyWorld "getwd: no such file or directory"
           {| body_read := textOf "a.txt" "a1"; body_err := None |});
    reflexivity.
Defined.


Lemma empty_bucket_changes_nothing_witness :
  let w1 := call (CallListObjectsV2 "logs") emptyWorld in
  ListObjectsV2 emptyBucketEnv emptyWorld "logs" = inr []
  /\ pipeline stableSlice emptyBucketEnv "logs" "/out" scenarioRepo emptyWorld
     = (ReachedEnd [] None []
          {| applied := []; currentDate := time_zero; objectModifications := [];
             exit := InputExhausted; world := w1 |}, w1).
Proof.
  split; [reflexivity|].
  apply (empty_bucket_changes_nothing stableSlice emptyBucketEnv "logs" "/out"
           scenarioRepo emptyWorld).
  reflexivity.
Defined.



Lemma region_ignored_without_profile_witness :
  profileFlag scenarioFlags = ""
  /\ main stableSlice scenarioEnv (withRegion "eu-central-1" scenarioFlags) emptyWorld
     = main stableSlice scenarioEnv scenarioFlags emptyWorld.
Proof.
  split; [reflexivity|].
  apply (region_ignored_without_profile stableSlice scenarioEnv scenarioFlags
           emptyWorld "eu-central-1").
  reflexivity.
Defined.

Lemma main_reopens_existing_repository_witness :
  (forall w' p, PlainOpen scenarioEnv w' p = None)
  /\ exists k,
       calls (main stableSlice scenarioEnv scenarioFlags emptyWorld).2
       = calls emptyWorld ++ k
       /\ Forall (fun c => forall p, c <> CallPlainInit p) k.
Proof.
  split; [reflexivity|].
  apply (main_reopens_existing_repository stableSlice scenarioEnv scenarioFlags
           emptyWorld).
  reflexivity.
Defined.
